(** * Bayesian age detector: the estimator ([fit]) and the inference engine
    ([predict]) of [src/python/age_detector.py], embedded shallowly.

    Conventions of the embedding.
    - numpy's float64 values are taken as exact rationals ([Q]); [np.exp] and
      [np.log] are parameters of the inference section, and a theorem states
      the properties of [np.exp] it relies on as hypotheses.  A division whose
      numpy result would be [inf] or [nan] (a zero denominator) has the value
      [Qdiv] gives it; no theorem below depends on such a cell.
    - Python exceptions are values of [exception]; a computation that may
      raise returns a [result].
    - A scipy CSR matrix is its column count with, per row, the stored
      [(column, value)] entries in storage order.  A dense 2-d ndarray is its
      column count with the list of its rows.
    - [np.savetxt] in [predict] writes the returned vector to
      [age_preds.csv]; the embedding keeps the returned vector only. *)

From Stdlib Require Import List Sorted Permutation ZArith QArith Lia Lqa Bool
  Arith.
Import ListNotations.

Set Implicit Arguments.

(** ** Exceptions *)

Inductive exception : Set :=
| IndexError
| ValueError
| AttributeError
| ZeroDivisionError.

Inductive result (A : Type) : Type :=
| Ok (a : A)
| Raise (e : exception).

Arguments Ok {A} a.
Arguments Raise {A} e.

Definition bind {A B : Type} (r : result A) (k : A -> result B) : result B :=
  match r with
  | Ok a => k a
  | Raise e => Raise e
  end.

Notation "x <- c ;; k" := (bind c (fun x => k))
  (at level 61, c at next level, right associativity).

(** ** Arrays *)

Definition Qsum (l : list Q) : Q := fold_right Qplus 0%Q l.

Definition Qnat (n : nat) : Q := inject_Z (Z.of_nat n).

Fixpoint map2 {A B C : Type} (f : A -> B -> C) (l : list A) (l' : list B)
  : list C :=
  match l, l' with
  | a :: t, b :: t' => f a b :: map2 f t t'
  | _, _ => []
  end.

Fixpoint list_set {A : Type} (l : list A) (i : nat) (x : A) : list A :=
  match l, i with
  | [], _ => []
  | _ :: t, O => x :: t
  | a :: t, S i' => a :: list_set t i' x
  end.

(** Stored entries of one CSR row. *)
Definition sparse_row : Type := list (nat * Q).

Record csr_matrix : Type := mk_csr {
  n_cols : nat;
  csr_rows : list sparse_row
}.

Definition n_rows (X : csr_matrix) : nat := length (csr_rows X).

(** The value of a row at column [j]: scipy adds up duplicate entries. *)
Definition row_get (r : sparse_row) (j : nat) : Q :=
  Qsum (map snd (filter (fun e => Nat.eqb (fst e) j) r)).

Record ndarray : Type := mk_nd {
  nd_cols : nat;
  nd_rows : list (list Q)
}.

Definition np_zeros (r c : nat) : ndarray :=
  mk_nd c (repeat (repeat 0%Q c) r).

(** numpy's index rule on an axis of size [k]: [0 <= i < k] as it is,
    [-k <= i < 0] counted from the end, anything else raises. *)
Definition np_index (k : nat) (i : Z) : result nat :=
  if ((0 <=? i) && (i <? Z.of_nat k))%Z then Ok (Z.to_nat i)
  else if ((- Z.of_nat k <=? i) && (i <? 0))%Z then Ok (Z.to_nat (i + Z.of_nat k))
  else Raise IndexError.

(** [a[i, :] = v] for an index already resolved by [np_index]. *)
Definition nd_set_row (a : ndarray) (i : nat) (v : list Q) : ndarray :=
  mk_nd (nd_cols a) (list_set (nd_rows a) i v).

(** [a.sum(axis=0)] of a dense array. *)
Definition nd_sum_axis0 (a : ndarray) : list Q :=
  map (fun j => Qsum (map (fun r => nth j r 0%Q) (nd_rows a)))
      (seq 0 (nd_cols a)).

(** Elementwise binary operation on two 2-d arrays with the same column
    count, numpy's broadcasting rule applied to the row axis. *)
Definition nd_binop (op : Q -> Q -> Q) (a b : ndarray) : result ndarray :=
  let la := length (nd_rows a) in
  let lb := length (nd_rows b) in
  if Nat.eqb la lb then
    Ok (mk_nd (nd_cols a) (map2 (map2 op) (nd_rows a) (nd_rows b)))
  else if Nat.eqb la 1 then
    Ok (mk_nd (nd_cols a) (map (map2 op (hd [] (nd_rows a))) (nd_rows b)))
  else if Nat.eqb lb 1 then
    Ok (mk_nd (nd_cols a)
              (map (fun ra => map2 op ra (hd [] (nd_rows b))) (nd_rows a)))
  else Raise ValueError.

(** A 2-d array combined with a scalar. *)
Definition nd_scalar (op : Q -> Q) (a : ndarray) : ndarray :=
  mk_nd (nd_cols a) (map (map op) (nd_rows a)).

(** A 2-d array combined with a 1-d array that has one cell per column. *)
Definition nd_rowop (op : Q -> Q -> Q) (a : ndarray) (v : list Q) : ndarray :=
  mk_nd (nd_cols a) (map (fun r => map2 op r v) (nd_rows a)).

(** ** Boolean-mask row selection of a CSR matrix

    [X[mask, :]]: scipy turns the mask into the indices of its [True] cells
    and bounds-checks them against the row count. *)

Fixpoint nonzero_from (i : nat) (mask : list bool) : list nat :=
  match mask with
  | [] => []
  | b :: t => if b then i :: nonzero_from (S i) t else nonzero_from (S i) t
  end.

Definition nonzero (mask : list bool) : list nat := nonzero_from 0 mask.

Fixpoint take_rows (rows : list sparse_row) (idx : list nat)
  : result (list sparse_row) :=
  match idx with
  | [] => Ok []
  | i :: t =>
      match nth_error rows i with
      | None => Raise IndexError
      | Some r => rs <- take_rows rows t ;; Ok (r :: rs)
      end
  end.

Definition csr_getitem_mask (X : csr_matrix) (mask : list bool)
  : result csr_matrix :=
  rs <- take_rows (csr_rows X) (nonzero mask) ;;
  Ok (mk_csr (n_cols X) rs).

(** [X.sum(axis=0)] of a CSR matrix: one cell per column. *)
Definition csr_sum_axis0 (X : csr_matrix) : list Q :=
  map (fun j => Qsum (map (fun r => row_get r j) (csr_rows X)))
      (seq 0 (n_cols X)).

(** [X.tocoo()]: the coordinates of the stored entries, row by row. *)
Fixpoint coo_from (i : nat) (rows : list sparse_row) : list (nat * nat) :=
  match rows with
  | [] => []
  | r :: t => map (fun e => (i, fst e)) r ++ coo_from (S i) t
  end.

Definition tocoo (X : csr_matrix) : list (nat * nat) :=
  coo_from 0 (csr_rows X).

(** ** [np.unique(y, return_counts=True)] *)

Fixpoint insert_count (c : Z) (l : list (Z * nat)) : list (Z * nat) :=
  match l with
  | [] => [(c, 1%nat)]
  | (d, n) :: t =>
      if (c <? d)%Z then (c, 1%nat) :: l
      else if (c =? d)%Z then (d, S n) :: t
      else (d, n) :: insert_count c t
  end.

Definition count_table (y : list Z) : list (Z * nat) :=
  fold_right insert_count [] y.

Definition np_unique (y : list Z) : list Z * list nat :=
  (map fst (count_table y), map snd (count_table y)).

(** [pd.DataFrame(index=bins, data=counts)]: one column of counts. *)
Record DataFrame : Type := mk_df {
  index : list Z;
  values : list nat
}.

(** ** The estimator *)

Record AgeDetector : Type := mk_AgeDetector {
  n_classes : nat;
  PRIOR : list Q;
  model : option ndarray
}.

(** [__init__]: [1.0 / n_classes] raises for [n_classes = 0]. *)
Definition AgeDetector_init (n : nat) : result AgeDetector :=
  match n with
  | O => Raise ZeroDivisionError
  | S _ => Ok (mk_AgeDetector n (repeat (1 / Qnat n)%Q n) None)
  end.

Definition set_model (self : AgeDetector) (m : ndarray) : AgeDetector :=
  mk_AgeDetector (n_classes self) (PRIOR self) (Some m).

(** [np.tile(bucket_counts.values, (1, f))]. *)
Definition np_tile_cols (v : list nat) (f : nat) : ndarray :=
  mk_nd f (map (fun n => repeat (Qnat n) f) v).

Definition _add_prior_knowledge (pos_counts : ndarray)
  (bucket_counts : DataFrame) (n_data : nat) : result (ndarray * ndarray) :=
  let total_counts := np_tile_cols (values bucket_counts) (nd_cols pos_counts) in
  let b := nd_scalar (fun x => x / 10)%Q total_counts in
  let n_followers := nd_sum_axis0 pos_counts in
  let a := nd_scalar (fun x => x / Qnat n_data)%Q (nd_rowop Qmult b n_followers) in
  pos_counts' <- nd_binop Qplus pos_counts a ;;
  total_a <- nd_binop Qplus total_counts a ;;
  let total_counts' := nd_scalar (fun x => x + 1)%Q total_a in
  Ok (pos_counts', total_counts').

(** The loop [for cat in bins] of [fit]. *)
Fixpoint bucket_loop (X : csr_matrix) (y : list Z) (bins : list Z)
  (pos_counts : ndarray) : result ndarray :=
  match bins with
  | [] => Ok pos_counts
  | cat :: rest =>
      let mask := map (fun l => (l =? cat)%Z) y in
      sel <- csr_getitem_mask X mask ;;
      let sums := csr_sum_axis0 sel in
      i <- np_index (length (nd_rows pos_counts)) (cat - 1) ;;
      bucket_loop X y rest (nd_set_row pos_counts i sums)
  end.

Definition fit_model (X : csr_matrix) (y : list Z) : result ndarray :=
  let (bins, counts) := np_unique y in
  let bucket_counts := mk_df bins counts in
  let n_cats := length bins in
  let n_data := n_rows X in
  let n_features := n_cols X in
  let pos_counts := np_zeros n_cats n_features in
  pos_counts <- bucket_loop X y bins pos_counts ;;
  pt <- _add_prior_knowledge pos_counts bucket_counts n_data ;;
  nd_binop Qdiv (fst pt) (snd pt).

Definition fit (self : AgeDetector) (X : csr_matrix) (y : list Z)
  : result AgeDetector :=
  m <- fit_model X y ;;
  Ok (set_model self m).

(** ** The inference engine *)

Section Inference.

Variable np_exp : Q -> Q.
Variable np_log : Q -> Q.

(** [model[:, col]]. *)
Definition nd_column (a : ndarray) (col : nat) : result (list Q) :=
  if (col <? nd_cols a)%nat then Ok (map (fun r => nth col r 0%Q) (nd_rows a))
  else Raise IndexError.

(** [joint[row, :] += v]. *)
Definition nd_iadd_row (joint : ndarray) (row : nat) (v : list Q)
  : result ndarray :=
  match nth_error (nd_rows joint) row with
  | None => Raise IndexError
  | Some r => Ok (nd_set_row joint row (map2 Qplus r v))
  end.

(** The loop over the stored coordinates of [X]. *)
Fixpoint accumulate (m : ndarray) (coo : list (nat * nat)) (joint : ndarray)
  : result ndarray :=
  match coo with
  | [] => Ok joint
  | (row, col) :: rest =>
      v <- nd_column m col ;;
      joint' <- nd_iadd_row joint row v ;;
      accumulate m rest joint'
  end.

(** [joint += v] for a 1-d [v]: the lengths agree, or [v] has one cell. *)
Definition nd_iadd_vec (joint : ndarray) (v : list Q) : result ndarray :=
  if Nat.eqb (length v) (nd_cols joint) then Ok (nd_rowop Qplus joint v)
  else if Nat.eqb (length v) 1 then
    Ok (nd_scalar (fun x => x + hd 0 v)%Q joint)
  else Raise ValueError.

Definition Qltb (x y : Q) : bool := negb (Qle_bool y x).

Fixpoint max_from (best : Q) (l : list Q) : Q :=
  match l with
  | [] => best
  | x :: t => max_from (if Qltb best x then x else best) t
  end.

(** First position of the largest cell, scanning from position [i]. *)
Fixpoint argmax_from (best_i : nat) (best : Q) (i : nat) (l : list Q) : nat :=
  match l with
  | [] => best_i
  | x :: t =>
      if Qltb best x then argmax_from i x (S i) t
      else argmax_from best_i best (S i) t
  end.

(** [np.max(a, axis=1)]: a reduction without identity raises on an axis of
    size zero. *)
Definition nd_max_axis1 (a : ndarray) : result (list Q) :=
  if Nat.eqb (nd_cols a) 0 then Raise ValueError
  else Ok (map (fun r => max_from (hd 0%Q r) (tl r)) (nd_rows a)).

Definition nd_argmax_axis1 (a : ndarray) : result (list nat) :=
  if Nat.eqb (nd_cols a) 0 then Raise ValueError
  else Ok (map (fun r => argmax_from 0 (hd 0%Q r) 1 (tl r)) (nd_rows a)).

(** A 2-d array combined with a column vector ([v[:, np.newaxis]]). *)
Definition nd_colop (op : Q -> Q -> Q) (a : ndarray) (v : list Q) : ndarray :=
  mk_nd (nd_cols a) (map2 (fun r x => map (fun c => op c x) r) (nd_rows a) v).

Definition nd_sum_axis1 (a : ndarray) : list Q := map Qsum (nd_rows a).

Definition predict (self : AgeDetector) (X : csr_matrix) : result (list Z) :=
  match model self with
  | None => Raise AttributeError
  | Some m =>
      let n_cats := length (nd_rows m) in
      let joint := np_zeros (n_rows X) n_cats in
      joint <- accumulate m (tocoo X) joint ;;
      joint <- nd_iadd_vec joint (map np_log (PRIOR self)) ;;
      mx <- nd_max_axis1 joint ;;
      let joint := nd_colop Qminus joint mx in
      let probs := nd_scalar np_exp joint in
      let normaliser := nd_sum_axis1 probs in
      let probs := nd_colop Qdiv probs normaliser in
      am <- nd_argmax_axis1 probs ;;
      Ok (map (fun i => (Z.of_nat i + 1)%Z) am)
  end.

End Inference.

(** ** Quantities named by the specification *)

(** The class values [1; ...; k]. *)
Definition classes (k : nat) : list Z := map Z.of_nat (seq 1 k).

(** The distinct values of [y] are exactly [1, ..., k]. *)
Definition labels_are (y : list Z) (k : nat) : Prop :=
  forall c, In c y <-> (1 <= c <= Z.of_nat k)%Z.

(** Every cell of [X] is 0 or 1. *)
Definition csr_binary (X : csr_matrix) : Prop :=
  Forall (fun r => forall j, (row_get r j == 0 \/ row_get r j == 1)%Q)
         (csr_rows X).

(** Every stored column index of [X] is below its column count. *)
Definition csr_wf (X : csr_matrix) : Prop :=
  Forall (Forall (fun e : nat * Q => (fst e < n_cols X)%nat)) (csr_rows X).

(** The rows of [X] whose label is [c]. *)
Definition rows_labelled (X : csr_matrix) (y : list Z) (c : Z)
  : list sparse_row :=
  map fst (filter (fun p => (snd p =? c)%Z) (combine (csr_rows X) y)).

(** The vector [fit] stores for class [c]. *)
Definition class_sums (X : csr_matrix) (y : list Z) (c : Z) : list Q :=
  csr_sum_axis0 (mk_csr (n_cols X) (rows_labelled X y c)).

(** [m_cj]: the sum of feature [j] over the rows labelled [c]. *)
Definition m_count (X : csr_matrix) (y : list Z) (c : Z) (j : nat) : Q :=
  Qsum (map (fun r => row_get r j) (rows_labelled X y c)).

(** [n_c]: the number of rows labelled [c]. *)
Definition n_count (y : list Z) (c : Z) : nat := count_occ Z.eq_dec y c.

(** [F_j]: the sum of [m_cj] over the classes [1, ..., k]. *)
Definition F_count (X : csr_matrix) (y : list Z) (k : nat) (j : nat) : Q :=
  Qsum (map (fun c => m_count X y c j) (classes k)).

(** [a_cj = b_c * F_j / n_samples] with [b_c = n_c / 10]. *)
Definition a_prior (X : csr_matrix) (y : list Z) (k : nat) (c : Z) (j : nat)
  : Q :=
  (Qnat (n_count y c) / 10 * F_count X y k j / Qnat (n_rows X))%Q.

(** [(m_cj + a_cj) / (n_c + a_cj + 1)]. *)
Definition smoothed_estimate (X : csr_matrix) (y : list Z) (k : nat) (c : Z)
  (j : nat) : Q :=
  ((m_count X y c j + a_prior X y k c j)
   / (Qnat (n_count y c) + a_prior X y k c j + 1))%Q.

(** The cell [(i, j)] of a dense array. *)
Definition nd_get (a : ndarray) (i j : nat) : Q :=
  nth j (nth i (nd_rows a) []) 0%Q.

(** The dense array has [r] rows of [c] cells each. *)
Definition nd_shape (a : ndarray) (r c : nat) : Prop :=
  length (nd_rows a) = r /\ nd_cols a = c /\
  Forall (fun row => length row = c) (nd_rows a).

(** The number of distinct values of a label vector. *)
Definition n_distinct (y : list Z) : nat := length (nodup Z.eq_dec y).

(** Lines 66 to 68 of [fit]: smoothing, then the division. *)
Definition smoothed_model (pos_counts : ndarray) (bucket_counts : DataFrame)
  (n_data : nat) : result ndarray :=
  pt <- _add_prior_knowledge pos_counts bucket_counts n_data ;;
  nd_binop Qdiv (fst pt) (snd pt).

(** [pos_counts[c, j] += 1]. *)
Definition nd_incr (a : ndarray) (i j : nat) : ndarray :=
  nd_set_row a i (list_set (nth i (nd_rows a) []) j (nd_get a i j + 1)%Q).

(** The cell the smoothing computes from a count [p], a bucket count [n],
    a feature total [F] and the sample count [N]. *)
Definition smoothed_cell (p : Q) (n : nat) (F : Q) (N : nat) : Q :=
  ((p + Qnat n / 10 * F / Qnat N)
   / (Qnat n + Qnat n / 10 * F / Qnat N + 1))%Q.

(** What [predict] does to one row of the accumulated [joint] array, given
    the vector [np.log(PRIOR)]. *)
Definition row_label (np_exp : Q -> Q) (logp : list Q) (row : list Q) : Z :=
  let j := map2 Qplus row logp in
  let mx := max_from (hd 0%Q j) (tl j) in
  let j' := map (fun c => c - mx)%Q j in
  let p := map np_exp j' in
  let s := Qsum p in
  let p' := map (fun c => c / s)%Q p in
  (Z.of_nat (argmax_from 0 (hd 0%Q p') 1 (tl p')) + 1)%Z.

(** The exception Python raises when an attribute of [None] is read. *)
Definition null_dereference (e : exception) : Prop := e = AttributeError.

(** A strictly increasing, positive function on the rationals, used where a
    concrete instance of [np.exp] is needed. *)
Definition exp_instance (x : Q) : Q :=
  if Qle_bool 0 x then (1 + x)%Q else (1 / (1 - x))%Q.

(** The data of the end-to-end scenario. *)
Definition X_scenario : csr_matrix :=
  mk_csr 2 [[(0%nat, 1%Q)]; [(0%nat, 1%Q)]; [(1%nat, 1%Q)]; [(1%nat, 1%Q)]].

Definition y_scenario : list Z := [1; 1; 2; 2]%Z.

(** The estimator of the scenario: built with two classes, then fitted. *)
Definition self0_scenario : AgeDetector :=
  mk_AgeDetector 2 [1 # 2; 1 # 2]%Q None.

Definition model_scenario : ndarray :=
  Eval vm_compute in
    match fit_model X_scenario y_scenario with
    | Ok m => m
    | Raise _ => mk_nd 0 []
    end.

Definition self_scenario : AgeDetector :=
  set_model self0_scenario model_scenario.

(** ** Labels counted from zero *)

(** The distinct values of [y] are exactly [0, ..., k - 1]. *)
Definition labels_from_zero (y : list Z) (k : nat) : Prop :=
  forall c, In c y <-> (0 <= c < Z.of_nat k)%Z.

(** The class whose sums [fit] writes to row [i] when the labels are
    [0, ..., k - 1]: class [i + 1], and class 0 for the last row. *)
Definition class_in_row (k i : nat) : Z := Z.of_nat (S i mod k).

(** ** Cross-validation *)

Section CrossValidation.

Variable np_exp : Q -> Q.
Variable np_log : Q -> Q.

(** [utils.get_metrics] lives in another module; [run_cv_pred] prints its
    result and does nothing else with it. *)
Variable get_metrics : list Z -> list Z -> result (Q * Q).

(** [X[index]] for an integer index array: the rows in index order. *)
Definition csr_getitem_rows (X : csr_matrix) (idx : list nat)
  : result csr_matrix :=
  rs <- take_rows (csr_rows X) idx ;;
  Ok (mk_csr (n_cols X) rs).

(** [y[index]] for an integer index array. *)
Fixpoint np_take (y : list Z) (idx : list nat) : result (list Z) :=
  match idx with
  | [] => Ok []
  | i :: t =>
      match nth_error y i with
      | None => Raise IndexError
      | Some v => vs <- np_take y t ;; Ok (v :: vs)
      end
  end.

Fixpoint np_put (a : list Z) (idx : list nat) (vals : list Z) : list Z :=
  match idx, vals with
  | i :: t, v :: vs => np_put (list_set a i v) t vs
  | _, _ => a
  end.

(** [a[index] = vals]: the values are paired with the indices, a single
    value is broadcast.  In [run_cv_pred] neither check can fail (the indices
    have been used on [y] just before, and [predict] returns one label per
    selected row), so the order of the two checks plays no role there. *)
Definition np_setitem (a : list Z) (idx : list nat) (vals : list Z)
  : result (list Z) :=
  if negb (forallb (fun i => (i <? length a)%nat) idx) then Raise IndexError
  else if Nat.eqb (length vals) (length idx) then Ok (np_put a idx vals)
  else if Nat.eqb (length vals) 1 then
    Ok (np_put a idx (repeat (hd 0%Z vals) (length idx)))
  else Raise ValueError.

(** The loop of [run_cv_pred] over the folds. *)
Fixpoint cv_folds (X : csr_matrix) (y : list Z)
  (splits : list (list nat * list nat)) (clf : AgeDetector)
  (y_pred : list Z) : result (AgeDetector * list Z) :=
  match splits with
  | [] => Ok (clf, y_pred)
  | (train_index, test_index) :: rest =>
      X_train <- csr_getitem_rows X train_index ;;
      X_test <- csr_getitem_rows X test_index ;;
      y_train <- np_take y train_index ;;
      clf' <- fit clf X_train y_train ;;
      preds <- predict np_exp np_log clf' X_test ;;
      y_test <- np_take y test_index ;;
      _ <- get_metrics preds y_test ;;
      y_pred' <- np_setitem y_pred test_index preds ;;
      cv_folds X y rest clf' y_pred'
  end.

(** [run_cv_pred(X, y, clf, n_folds)].  The folds come from scikit-learn's
    shuffled [StratifiedKFold(n_splits=n_folds).split(X, y)]; they are taken
    as the list [splits] of (train indices, test indices).  The result pairs
    the estimator as the call leaves it with the returned [y_pred]. *)
Definition run_cv_pred (X : csr_matrix) (y : list Z) (clf : AgeDetector)
  (splits : list (list nat * list nat)) : result (AgeDetector * list Z) :=
  cv_folds X y splits clf y.

End CrossValidation.

(** No index belongs to the test part of two folds. *)
Definition disjoint_test_folds (splits : list (list nat * list nat)) : Prop :=
  ForallOrdPairs (fun s s' => forall i, In i (snd s) -> ~ In i (snd s')) splits.

(** * Lists *)

Lemma length_map2 (A B C : Type) (f : A -> B -> C) l l' :
  length (map2 f l l') = Nat.min (length l) (length l').
Proof.
  revert l'; induction l as [|a l IH]; intros [|b l']; simpl; auto.
Qed.

Lemma nth_map2 (A B C : Type) (f : A -> B -> C) l l' i d da db :
  (i < length l)%nat -> (i < length l')%nat ->
  nth i (map2 f l l') d = f (nth i l da) (nth i l' db).
Proof.
  revert l' i; induction l as [|a l IH]; intros [|b l'] i; simpl;
    try lia.
  destruct i as [|i]; intros; [reflexivity | apply IH; lia].
Qed.

Lemma nth_map_lt (A B : Type) (f : A -> B) l i d d' :
  (i < length l)%nat -> nth i (map f l) d' = f (nth i l d).
Proof.
  revert i; induction l as [|a l IH]; intros i; simpl; try lia.
  destruct i as [|i]; intros; [reflexivity | apply IH; lia].
Qed.

Lemma length_list_set (A : Type) (l : list A) i x :
  length (list_set l i x) = length l.
Proof.
  revert i; induction l as [|a l IH]; intros [|i]; simpl; auto.
Qed.

Lemma nth_list_set_eq (A : Type) (l : list A) i x d :
  (i < length l)%nat -> nth i (list_set l i x) d = x.
Proof.
  revert i; induction l as [|a l IH]; intros [|i]; simpl; try lia; auto.
  intros; apply IH; lia.
Qed.

Lemma nth_list_set_neq (A : Type) (l : list A) i i' x d :
  i <> i' -> nth i' (list_set l i x) d = nth i' l d.
Proof.
  revert i i'; induction l as [|a l IH]; intros [|i] [|i']; simpl; auto;
    try congruence.
Qed.

Lemma Forall_list_set (A : Type) (P : A -> Prop) (l : list A) i x :
  Forall P l -> P x -> Forall P (list_set l i x).
Proof.
  intros H Hx; revert i; induction H as [|a l Ha Hl IH]; intros [|i]; simpl;
    auto.
Qed.

Lemma nth_repeat_lt (A : Type) (x d : A) n i :
  (i < n)%nat -> nth i (repeat x n) d = x.
Proof.
  revert i; induction n as [|n IH]; intros [|i]; simpl; try lia; auto.
  intros; apply IH; lia.
Qed.

(** * [np.unique] *)

Lemma insert_count_In c l x :
  In x (map fst (insert_count c l)) <-> x = c \/ In x (map fst l).
Proof.
  induction l as [|[d n] l IH]; simpl.
  - intuition.
  - destruct (Z.ltb_spec c d); simpl; [intuition|].
    destruct (Z.eqb_spec c d); simpl; [subst; intuition|].
    rewrite IH; intuition.
Qed.

Lemma insert_count_sorted c l :
  StronglySorted Z.lt (map fst l) ->
  StronglySorted Z.lt (map fst (insert_count c l)).
Proof.
  induction l as [|[d n] l IH]; simpl; intros H.
  - repeat constructor.
  - inversion H as [|? ? Hs Hf]; subst.
    destruct (Z.ltb_spec c d); simpl.
    + constructor; [exact H|].
      constructor; [assumption|].
      eapply Forall_impl; [|exact Hf]; simpl; intros; lia.
    + destruct (Z.eqb_spec c d); simpl; [exact H|].
      constructor; [auto|].
      apply Forall_forall; intros x Hx.
      apply insert_count_In in Hx; destruct Hx as [->|Hx]; [lia|].
      rewrite Forall_forall in Hf; auto.
Qed.

Lemma insert_count_counts (g : Z -> nat) c l :
  StronglySorted Z.lt (map fst l) ->
  Forall (fun p => snd p = g (fst p)) l ->
  (~ In c (map fst l) -> g c = O) ->
  Forall (fun p => snd p = if Z.eq_dec c (fst p) then S (g (fst p))
                           else g (fst p))
         (insert_count c l).
Proof.
  induction l as [|[d n] l IH]; simpl; intros Hs Hf Hc.
  - constructor; [|constructor]; simpl.
    destruct (Z.eq_dec c c); [|congruence]. rewrite Hc; tauto.
  - inversion Hs as [|? ? Hs' Hlt]; subst.
    inversion Hf as [|? ? Hd Hf']; subst; simpl in Hd.
    assert (Hrest : forall l0, Forall (fun p => (d < fst p)%Z) l0 ->
              Forall (fun p => snd p = g (fst p)) l0 ->
              Forall (fun p : Z * nat => snd p =
                if Z.eq_dec c (fst p) then S (g (fst p)) else g (fst p)) l0
              \/ (d < c)%Z).
    { intros l0 H1 H2. destruct (Z.ltb_spec d c); [now right|left].
      rewrite Forall_forall in *; intros p Hp.
      specialize (H1 p Hp); specialize (H2 p Hp).
      destruct (Z.eq_dec c (fst p)); [lia|auto]. }
    assert (Hlt' : Forall (fun p => (d < fst p)%Z) l).
    { rewrite Forall_forall in *; intros p Hp; apply Hlt.
      now apply in_map. }
    destruct (Z.ltb_spec c d); simpl.
    + constructor; simpl.
      * destruct (Z.eq_dec c c); [|congruence].
        rewrite Hc; [reflexivity|].
        intros [->|Hin]; [lia|].
        rewrite Forall_forall in Hlt; specialize (Hlt _ Hin); lia.
      * constructor; simpl.
        { destruct (Z.eq_dec c d); [lia|auto]. }
        destruct (Hrest l Hlt' Hf'); [assumption|lia].
    + destruct (Z.eqb_spec c d); simpl.
      * subst d. constructor; simpl.
        { destruct (Z.eq_dec c c); [|congruence]. now rewrite Hd. }
        destruct (Hrest l Hlt' Hf'); [assumption|lia].
      * constructor; simpl.
        { destruct (Z.eq_dec c d); [congruence|auto]. }
        apply IH; auto.
        intros Hn; apply Hc; intros [E|E]; [congruence|auto].
Qed.

Lemma count_table_spec y :
  StronglySorted Z.lt (map fst (count_table y)) /\
  (forall c, In c (map fst (count_table y)) <-> In c y) /\
  Forall (fun p => snd p = n_count y (fst p)) (count_table y).
Proof.
  induction y as [|a y (Hs & Hin & Hc)]; simpl.
  - repeat split; try constructor; simpl; tauto.
  - split; [now apply insert_count_sorted|].
    split.
    + intros c; rewrite insert_count_In, Hin; intuition.
    + unfold n_count; simpl.
      eapply Forall_impl;
        [|apply (insert_count_counts (n_count y) a Hs Hc)].
      * simpl; intros p Hp; rewrite Hp.
        destruct (Z.eq_dec a (fst p)); reflexivity.
      * intros Hn; apply count_occ_not_In; rewrite <- Hin; exact Hn.
Qed.

Lemma sorted_same_members (l l' : list Z) :
  StronglySorted Z.lt l -> StronglySorted Z.lt l' ->
  (forall x, In x l <-> In x l') -> l = l'.
Proof.
  revert l'; induction l as [|a l IH]; intros [|b l'] Hs Hs' Hm.
  - reflexivity.
  - exfalso; apply (proj2 (Hm b)); now left.
  - exfalso; apply (proj1 (Hm a)); now left.
  - inversion Hs as [|? ? Hs1 Hf]; inversion Hs' as [|? ? Hs1' Hf']; subst.
    rewrite Forall_forall in Hf, Hf'.
    assert (a = b).
    { destruct (proj1 (Hm a) (or_introl eq_refl)) as [E|E]; [auto|].
      destruct (proj2 (Hm b) (or_introl eq_refl)) as [E'|E']; [auto|].
      specialize (Hf _ E'); specialize (Hf' _ E); lia. }
    subst b; f_equal; apply IH; auto.
    intros x; split; intros Hx.
    + destruct (proj1 (Hm x) (or_intror Hx)) as [E|E]; [|exact E].
      specialize (Hf _ Hx); lia.
    + destruct (proj2 (Hm x) (or_intror Hx)) as [E|E]; [|exact E].
      specialize (Hf' _ Hx); lia.
Qed.

Lemma classes_In k c : In c (classes k) <-> (1 <= c <= Z.of_nat k)%Z.
Proof.
  unfold classes; rewrite in_map_iff; split.
  - intros (i & <- & Hi); apply in_seq in Hi; lia.
  - intros H; exists (Z.to_nat c); split; [lia|apply in_seq; lia].
Qed.

Lemma seq_sorted s n : StronglySorted Z.lt (map Z.of_nat (seq s n)).
Proof.
  revert s; induction n as [|n IH]; intros s; simpl; constructor; auto.
  apply Forall_forall; intros x Hx.
  apply in_map_iff in Hx; destruct Hx as (i & <- & Hi).
  apply in_seq in Hi; lia.
Qed.

Lemma classes_sorted k : StronglySorted Z.lt (classes k).
Proof. apply seq_sorted. Qed.

Lemma np_unique_labels y k :
  labels_are y k ->
  np_unique y = (classes k, map (n_count y) (classes k)).
Proof.
  intros H; unfold np_unique.
  destruct (count_table_spec y) as (Hs & Hin & Hc).
  assert (E : map fst (count_table y) = classes k).
  { apply sorted_same_members; auto using classes_sorted.
    intros x; rewrite Hin, classes_In; apply H. }
  f_equal; [exact E|].
  rewrite <- E, map_map.
  apply map_ext_in; intros p Hp.
  rewrite Forall_forall in Hc; auto.
Qed.

(** * Row selection and the bucketing loop *)

Lemma take_rows_error rows idx e :
  take_rows rows idx = Raise e -> e = IndexError.
Proof.
  induction idx as [|i idx IH]; simpl; [discriminate|].
  destruct (nth_error rows i); [|congruence].
  destruct (take_rows rows idx); simpl; [discriminate|].
  intros H; apply IH; congruence.
Qed.

Lemma csr_getitem_mask_error X mask e :
  csr_getitem_mask X mask = Raise e -> e = IndexError.
Proof.
  unfold csr_getitem_mask.
  destruct (take_rows (csr_rows X) (nonzero mask)) eqn:E; simpl;
    [discriminate|].
  intros H; injection H as <-; apply (take_rows_error _ _ E).
Qed.

Lemma take_rows_mask c pre rows y :
  length y = length rows ->
  take_rows (pre ++ rows)
            (nonzero_from (length pre) (map (fun l => (l =? c)%Z) y))
  = Ok (map fst (filter (fun p => (snd p =? c)%Z) (combine rows y))).
Proof.
  revert pre y; induction rows as [|r rows IH]; intros pre [|l y]; simpl;
    try discriminate; auto.
  intros Hlen.
  assert (IH' := IH (pre ++ [r]) y).
  rewrite <- app_assoc, length_app in IH'; simpl in IH'.
  rewrite Nat.add_1_r in IH'.
  destruct (l =? c)%Z; simpl.
  - rewrite nth_error_app2, Nat.sub_diag by lia; simpl.
    rewrite IH' by lia; reflexivity.
  - apply IH'; lia.
Qed.

Lemma csr_getitem_mask_labelled X y c :
  length y = n_rows X ->
  csr_getitem_mask X (map (fun l => (l =? c)%Z) y)
  = Ok (mk_csr (n_cols X) (rows_labelled X y c)).
Proof.
  intros H; unfold csr_getitem_mask, nonzero, rows_labelled.
  pose proof (take_rows_mask c [] (csr_rows X) y H) as E; simpl in E.
  rewrite E; reflexivity.
Qed.

Lemma csr_getitem_mask_cols X mask sel :
  csr_getitem_mask X mask = Ok sel -> n_cols sel = n_cols X.
Proof.
  unfold csr_getitem_mask.
  destruct (take_rows (csr_rows X) (nonzero mask)); simpl; [|discriminate].
  intros H; injection H as <-; reflexivity.
Qed.

Lemma length_csr_sum_axis0 X : length (csr_sum_axis0 X) = n_cols X.
Proof. unfold csr_sum_axis0; now rewrite length_map, length_seq. Qed.

Lemma nth_csr_sum_axis0 X j :
  (j < n_cols X)%nat ->
  nth j (csr_sum_axis0 X) 0%Q = Qsum (map (fun r => row_get r j) (csr_rows X)).
Proof.
  intros H; unfold csr_sum_axis0.
  rewrite (nth_map_lt _ _ 0%nat) by (now rewrite length_seq).
  now rewrite seq_nth.
Qed.

Lemma np_index_pos k c :
  (1 <= c <= Z.of_nat k)%Z -> np_index k (c - 1) = Ok (Z.to_nat (c - 1)).
Proof.
  intros H; unfold np_index.
  destruct (Z.leb_spec 0 (c - 1)); [|lia].
  destruct (Z.ltb_spec (c - 1) (Z.of_nat k)); [reflexivity|lia].
Qed.

Lemma np_index_in_range k c :
  (1 - Z.of_nat k <= c <= Z.of_nat k)%Z ->
  exists i, np_index k (c - 1) = Ok i /\ (i < k)%nat.
Proof.
  intros H; unfold np_index.
  destruct (Z.leb_spec 0 (c - 1)); simpl.
  - destruct (Z.ltb_spec (c - 1) (Z.of_nat k)); [|lia].
    eexists; split; [reflexivity|lia].
  - destruct (Z.leb_spec (- Z.of_nat k) (c - 1)); [|lia].
    destruct (Z.ltb_spec (c - 1) 0); [|lia]; simpl.
    eexists; split; [reflexivity|lia].
Qed.

Lemma np_index_out_of_range k c :
  ~ (1 - Z.of_nat k <= c <= Z.of_nat k)%Z ->
  np_index k (c - 1) = Raise IndexError.
Proof.
  intros H; unfold np_index.
  destruct (Z.leb_spec 0 (c - 1)); simpl.
  - destruct (Z.ltb_spec (c - 1) (Z.of_nat k)); [lia|].
    destruct (Z.leb_spec (- Z.of_nat k) (c - 1)); simpl; [|reflexivity].
    destruct (Z.ltb_spec (c - 1) 0); [lia|reflexivity].
  - destruct (Z.leb_spec (- Z.of_nat k) (c - 1)); simpl; [|reflexivity].
    destruct (Z.ltb_spec (c - 1) 0); [lia|reflexivity].
Qed.

Lemma np_index_error k i e : np_index k i = Raise e -> e = IndexError.
Proof.
  unfold np_index.
  destruct ((0 <=? i) && (i <? Z.of_nat k))%Z; [discriminate|].
  destruct ((- Z.of_nat k <=? i) && (i <? 0))%Z; [discriminate|congruence].
Qed.

Lemma bucket_loop_shape X y bins P P' :
  bucket_loop X y bins P = Ok P' ->
  length (nd_rows P') = length (nd_rows P) /\
  nd_cols P' = nd_cols P /\
  (Forall (fun r => length r = n_cols X) (nd_rows P) ->
   Forall (fun r => length r = n_cols X) (nd_rows P')).
Proof.
  revert P; induction bins as [|cat bins IH]; intros P; simpl.
  - intros H; injection H as <-; auto.
  - destruct (csr_getitem_mask X _) as [sel|] eqn:Es; simpl; [|discriminate].
    destruct (np_index _ _) as [i|]; simpl; [|discriminate].
    intros H; apply IH in H; simpl in H.
    rewrite length_list_set in H.
    destruct H as (H1 & H2 & H3); repeat split; auto.
    intros HP; apply H3, Forall_list_set; auto.
    rewrite length_csr_sum_axis0; eapply csr_getitem_mask_cols; eauto.
Qed.

Lemma bucket_loop_error X y bins P e :
  bucket_loop X y bins P = Raise e -> e = IndexError.
Proof.
  revert P; induction bins as [|cat bins IH]; intros P; simpl; [discriminate|].
  destruct (csr_getitem_mask X _) as [sel|] eqn:Es; simpl.
  - destruct (np_index _ _) as [i|] eqn:Ei; simpl; [apply IH|].
    intros H; injection H as <-; apply (np_index_error _ _ Ei).
  - intros H; injection H as <-; apply (csr_getitem_mask_error _ _ Es).
Qed.

Lemma bucket_loop_in_range X y bins P :
  length y = n_rows X ->
  (forall c, In c bins ->
     (1 - Z.of_nat (length (nd_rows P)) <= c <= Z.of_nat (length (nd_rows P)))%Z) ->
  exists P', bucket_loop X y bins P = Ok P'.
Proof.
  intros Hy; revert P; induction bins as [|cat bins IH]; intros P Hb; simpl.
  - eauto.
  - rewrite csr_getitem_mask_labelled by assumption; simpl.
    destruct (np_index_in_range (length (nd_rows P)) (c:=cat))
      as (i & -> & Hi); [apply Hb; now left|]; simpl.
    apply IH; simpl; rewrite length_list_set.
    intros c Hc; apply Hb; now right.
Qed.

Lemma bucket_loop_out_of_range X y bins P :
  (exists c, In c bins /\
     ~ (1 - Z.of_nat (length (nd_rows P)) <= c <= Z.of_nat (length (nd_rows P)))%Z) ->
  bucket_loop X y bins P = Raise IndexError.
Proof.
  revert P; induction bins as [|cat bins IH]; intros P (c & Hin & Hc);
    simpl in *; [contradiction|].
  destruct (csr_getitem_mask X _) as [sel|] eqn:Es; simpl.
  - destruct (np_index _ _) as [i|] eqn:Ei; simpl.
    + apply IH; simpl; rewrite length_list_set.
      destruct Hin as [->|Hin]; [|eauto].
      rewrite np_index_out_of_range in Ei by assumption; discriminate.
    + f_equal; eapply np_index_error; eauto.
  - f_equal; eapply csr_getitem_mask_error; eauto.
Qed.

Lemma bucket_loop_classes X y bins P :
  length y = n_rows X ->
  NoDup bins ->
  (forall c, In c bins -> (1 <= c <= Z.of_nat (length (nd_rows P)))%Z) ->
  exists P',
    bucket_loop X y bins P = Ok P' /\
    (forall c, In c bins ->
       nth (Z.to_nat (c - 1)) (nd_rows P') [] = class_sums X y c) /\
    (forall i, (forall c, In c bins -> Z.to_nat (c - 1) <> i) ->
       nth i (nd_rows P') [] = nth i (nd_rows P) []).
Proof.
  intros Hy; revert P; induction bins as [|cat bins IH]; intros P Hnd Hb;
    simpl.
  - exists P; repeat split; auto; intros c [].
  - rewrite csr_getitem_mask_labelled by assumption; simpl.
    rewrite np_index_pos by (apply Hb; now left); simpl.
    inversion Hnd as [|? ? Hnotin Hnd']; subst.
    destruct (IH (nd_set_row P (Z.to_nat (cat - 1))
                    (csr_sum_axis0 (mk_csr (n_cols X) (rows_labelled X y cat))))
                 Hnd') as (P' & HP' & Hhit & Hmiss).
    { simpl; rewrite length_list_set; intros c Hc; apply Hb; now right. }
    exists P'; split; [exact HP'|]; split.
    + intros c [<-|Hc]; [|now apply Hhit].
      rewrite Hmiss; simpl.
      * rewrite nth_list_set_eq; [reflexivity|].
        specialize (Hb cat (or_introl eq_refl)); lia.
      * intros c Hc E.
        assert (1 <= c)%Z by (apply Hb; now right).
        assert (1 <= cat)%Z by (apply Hb; now left).
        apply Hnotin; replace cat with c by lia; exact Hc.
    + intros i Hi; rewrite Hmiss by (intros c Hc; apply Hi; now right).
      simpl; apply nth_list_set_neq; apply Hi; now left.
Qed.

(** * Cells of dense arrays *)

Lemma nd_shape_row a k f i :
  nd_shape a k f -> (i < k)%nat -> length (nth i (nd_rows a) []) = f.
Proof.
  intros (Hk & _ & Hf) Hi; rewrite Forall_forall in Hf.
  apply Hf, nth_In; lia.
Qed.

Lemma nd_scalar_shape op a k f :
  nd_shape a k f -> nd_shape (nd_scalar op a) k f.
Proof.
  intros (Hk & Hc & Hf); unfold nd_shape; simpl.
  rewrite length_map; repeat split; auto.
  apply Forall_forall; intros r Hr.
  apply in_map_iff in Hr; destruct Hr as (r0 & <- & Hr0).
  rewrite length_map; rewrite Forall_forall in Hf; auto.
Qed.

Lemma nd_scalar_get op a k f i j :
  nd_shape a k f -> (i < k)%nat -> (j < f)%nat ->
  nd_get (nd_scalar op a) i j = op (nd_get a i j).
Proof.
  intros Hs Hi Hj; unfold nd_get; simpl.
  pose proof (nd_shape_row Hs Hi) as Hr.
  destruct Hs as (Hk & _).
  rewrite (nth_map_lt _ _ (@nil Q)) by lia.
  apply nth_map_lt; lia.
Qed.

Lemma nd_rowop_shape op a v k f :
  nd_shape a k f -> length v = f -> nd_shape (nd_rowop op a v) k f.
Proof.
  intros (Hk & Hc & Hf) Hv; unfold nd_shape; simpl.
  rewrite length_map; repeat split; auto.
  apply Forall_forall; intros r Hr.
  apply in_map_iff in Hr; destruct Hr as (r0 & <- & Hr0).
  rewrite length_map2; rewrite Forall_forall in Hf.
  rewrite (Hf _ Hr0); lia.
Qed.

Lemma nd_rowop_get op a v k f i j :
  nd_shape a k f -> length v = f -> (i < k)%nat -> (j < f)%nat ->
  nd_get (nd_rowop op a v) i j = op (nd_get a i j) (nth j v 0%Q).
Proof.
  intros Hs Hv Hi Hj; unfold nd_get; simpl.
  pose proof (nd_shape_row Hs Hi) as Hr.
  destruct Hs as (Hk & _).
  rewrite (nth_map_lt _ _ (@nil Q)) by lia.
  apply nth_map2; lia.
Qed.

Lemma nd_binop_same_rows op a b k f :
  nd_shape a k f -> nd_shape b k f ->
  exists c, nd_binop op a b = Ok c /\ nd_shape c k f /\
    forall i j, (i < k)%nat -> (j < f)%nat ->
      nd_get c i j = op (nd_get a i j) (nd_get b i j).
Proof.
  intros Ha Hb; unfold nd_binop.
  pose proof Ha as (Hka & Hca & Hfa); pose proof Hb as (Hkb & Hcb & Hfb).
  rewrite Hka, Hkb, Nat.eqb_refl.
  eexists; split; [reflexivity|]; split.
  - unfold nd_shape; simpl; rewrite length_map2, Hka, Hkb.
    repeat split; auto; [lia|].
    apply Forall_forall; intros r Hr.
    destruct (In_nth _ _ (@nil Q) Hr) as (i & Hi & <-).
    rewrite length_map2 in Hi.
    rewrite (nth_map2 _ _ _ _ (@nil Q) (@nil Q)) by lia.
    rewrite length_map2, (nd_shape_row Ha), (nd_shape_row Hb); lia.
  - intros i j Hi Hj; unfold nd_get; simpl.
    rewrite (nth_map2 _ _ _ _ (@nil Q) (@nil Q)) by lia.
    apply nth_map2; [rewrite (nd_shape_row Ha)|rewrite (nd_shape_row Hb)];
      lia.
Qed.

Lemma np_tile_cols_shape v f : nd_shape (np_tile_cols v f) (length v) f.
Proof.
  unfold nd_shape; simpl; rewrite length_map; repeat split; auto.
  apply Forall_forall; intros r Hr.
  apply in_map_iff in Hr; destruct Hr as (n & <- & _).
  apply repeat_length.
Qed.

Lemma np_tile_cols_get v f i j :
  (i < length v)%nat -> (j < f)%nat ->
  nd_get (np_tile_cols v f) i j = Qnat (nth i v O).
Proof.
  intros Hi Hj; unfold nd_get; simpl.
  rewrite (nth_map_lt _ _ O) by lia.
  now apply nth_repeat_lt.
Qed.

Lemma length_nd_sum_axis0 a : length (nd_sum_axis0 a) = nd_cols a.
Proof. unfold nd_sum_axis0; now rewrite length_map, length_seq. Qed.

Lemma nth_nd_sum_axis0 a j :
  (j < nd_cols a)%nat ->
  nth j (nd_sum_axis0 a) 0%Q = Qsum (map (fun r => nth j r 0%Q) (nd_rows a)).
Proof.
  intros H; unfold nd_sum_axis0.
  rewrite (nth_map_lt _ _ O) by (now rewrite length_seq).
  now rewrite seq_nth.
Qed.

Lemma smoothed_model_cells P bc N k f :
  nd_shape P k f -> length (values bc) = k ->
  exists M, smoothed_model P bc N = Ok M /\ nd_shape M k f /\
    forall i j, (i < k)%nat -> (j < f)%nat ->
      nd_get M i j
      = smoothed_cell (nd_get P i j) (nth i (values bc) O)
          (Qsum (map (fun r => nth j r 0%Q) (nd_rows P))) N.
Proof.
  intros HP Hbc; unfold smoothed_model, _add_prior_knowledge.
  pose proof HP as (Hk & Hc & Hf).
  set (T := np_tile_cols (values bc) (nd_cols P)).
  assert (HT : nd_shape T k f).
  { subst T; rewrite Hc, <- Hbc; apply np_tile_cols_shape. }
  set (B := nd_scalar (fun x => x / 10)%Q T).
  assert (HB : nd_shape B k f) by (now apply nd_scalar_shape).
  set (nf := nd_sum_axis0 P).
  assert (Hnf : length nf = f) by (subst nf; now rewrite length_nd_sum_axis0).
  set (R := nd_rowop Qmult B nf).
  assert (HR : nd_shape R k f) by (now apply nd_rowop_shape).
  set (A := nd_scalar (fun x => x / Qnat N)%Q R).
  assert (HA : nd_shape A k f) by (now apply nd_scalar_shape).
  destruct (nd_binop_same_rows Qplus HP HA) as (P1 & -> & HP1 & GP1).
  destruct (nd_binop_same_rows Qplus HT HA) as (T1 & -> & HT1 & GT1).
  simpl.
  set (T2 := nd_scalar (fun x => x + 1)%Q T1).
  assert (HT2 : nd_shape T2 k f) by (now apply nd_scalar_shape).
  destruct (nd_binop_same_rows Qdiv HP1 HT2) as (M & -> & HM & GM).
  exists M; repeat split; try apply HM.
  intros i j Hi Hj.
  assert (GA : nd_get A i j
               = (Qnat (nth i (values bc) O) / 10
                  * Qsum (map (fun r => nth j r 0%Q) (nd_rows P)) / Qnat N)%Q).
  { subst A R B T nf.
    rewrite (@nd_scalar_get _ _ k f i j HR Hi Hj).
    rewrite (@nd_rowop_get _ _ _ k f i j HB Hnf Hi Hj).
    rewrite (@nd_scalar_get _ _ k f i j HT Hi Hj).
    rewrite np_tile_cols_get by lia.
    rewrite nth_nd_sum_axis0 by lia.
    reflexivity. }
  rewrite (GM i j Hi Hj), (GP1 i j Hi Hj).
  subst T2; rewrite (@nd_scalar_get _ _ k f i j HT1 Hi Hj), (GT1 i j Hi Hj), GA.
  subst T; rewrite np_tile_cols_get by lia.
  reflexivity.
Qed.

(** * The fitted model on labels [1, ..., k] *)

Lemma sorted_NoDup (l : list Z) : StronglySorted Z.lt l -> NoDup l.
Proof.
  induction 1 as [|a l Hs IH Hf]; constructor; auto.
  intros Hin; rewrite Forall_forall in Hf; specialize (Hf _ Hin); lia.
Qed.

Lemma length_classes k : length (classes k) = k.
Proof. unfold classes; now rewrite length_map, length_seq. Qed.

Lemma classes_nth k i :
  (i < k)%nat -> nth i (classes k) 0%Z = Z.of_nat (S i).
Proof.
  intros H; unfold classes.
  rewrite (nth_map_lt _ _ O) by (now rewrite length_seq).
  now rewrite seq_nth.
Qed.

Lemma np_zeros_shape r c : nd_shape (np_zeros r c) r c.
Proof.
  unfold nd_shape; simpl; rewrite repeat_length; repeat split; auto.
  apply Forall_forall; intros x Hx; apply repeat_spec in Hx; subst.
  apply repeat_length.
Qed.

Lemma nth_class_sums X y c j :
  (j < n_cols X)%nat -> nth j (class_sums X y c) 0%Q = m_count X y c j.
Proof. intros H; unfold class_sums; now rewrite nth_csr_sum_axis0. Qed.

Lemma fit_model_labels X y k :
  length y = n_rows X -> labels_are y k ->
  exists M, fit_model X y = Ok M /\ nd_shape M k (n_cols X) /\
    forall c j, (1 <= c <= Z.of_nat k)%Z -> (j < n_cols X)%nat ->
      nd_get M (Z.to_nat (c - 1)) j
      = smoothed_cell (m_count X y c j) (n_count y c) (F_count X y k j)
                      (n_rows X).
Proof.
  intros Hy Hl; unfold fit_model.
  rewrite (np_unique_labels Hl), length_classes.
  destruct (@bucket_loop_classes X y (classes k) (np_zeros k (n_cols X)) Hy)
    as (P & HP & Hhit & _).
  { apply sorted_NoDup, classes_sorted. }
  { intros c Hc; simpl; rewrite repeat_length; now apply classes_In. }
  rewrite HP; simpl.
  destruct (bucket_loop_shape _ _ _ _ HP) as (H1 & H2 & H3).
  assert (HPs : nd_shape P k (n_cols X)).
  { destruct (np_zeros_shape k (n_cols X)) as (Z1 & Z2 & Z3).
    unfold nd_shape; rewrite H1, H2; auto. }
  assert (Hrows : nd_rows P = map (class_sums X y) (classes k)).
  { apply (nth_ext _ _ (@nil Q) (@nil Q)).
    - rewrite length_map, length_classes; apply HPs.
    - intros i Hi; destruct HPs as (Hk & _); rewrite Hk in Hi.
      rewrite (nth_map_lt _ _ 0%Z) by (now rewrite length_classes).
      rewrite classes_nth by assumption.
      rewrite <- (Hhit (Z.of_nat (S i))) by (apply classes_In; lia).
      f_equal; lia. }
  destruct (@smoothed_model_cells P
              (mk_df (classes k) (map (n_count y) (classes k)))
              (n_rows X) k (n_cols X) HPs)
    as (M & HM & HMs & Hcells).
  { simpl; now rewrite length_map, length_classes. }
  exists M; split; [exact HM|]; split; [exact HMs|].
  intros c j Hc Hj.
  rewrite Hcells by lia; simpl.
  f_equal.
  - unfold nd_get; rewrite Hhit by (now apply classes_In).
    now apply nth_class_sums.
  - rewrite (nth_map_lt _ _ 0%Z) by (rewrite length_classes; lia).
    rewrite classes_nth by lia; f_equal; lia.
  - rewrite Hrows, map_map; unfold F_count; f_equal.
    apply map_ext; intros c'; now apply nth_class_sums.
Qed.

(** * Bounds on the counts and on the smoothed cell *)

Lemma Qnat_le (a b : nat) : (a <= b)%nat -> (Qnat a <= Qnat b)%Q.
Proof. intros H; unfold Qnat; rewrite <- Zle_Qle; lia. Qed.

Lemma Qnat_S (n : nat) : (Qnat (S n) == Qnat n + 1)%Q.
Proof.
  unfold Qnat; rewrite Nat2Z.inj_succ, <- Z.add_1_r, inject_Z_plus.
  reflexivity.
Qed.

Lemma Qsum_unit_cells (l : list Q) :
  Forall (fun x => (x == 0 \/ x == 1)%Q) l ->
  (0 <= Qsum l <= Qnat (length l))%Q.
Proof.
  induction 1 as [|x l Hx Hl IH]; simpl.
  - change (Qnat 0) with 0%Q; lra.
  - rewrite Qnat_S; destruct Hx as [Hx|Hx]; lra.
Qed.

Lemma Qsum_nonneg (l : list Q) :
  Forall (fun x => (0 <= x)%Q) l -> (0 <= Qsum l)%Q.
Proof. induction 1 as [|x l Hx Hl IH]; simpl; lra. Qed.

Lemma Qsum_member_le (l : list Q) (x : Q) :
  Forall (fun x => (0 <= x)%Q) l -> In x l -> (x <= Qsum l)%Q.
Proof.
  induction 1 as [|a l Ha Hl IH]; simpl; [tauto|].
  pose proof (Qsum_nonneg Hl).
  intros [->|Hin]; [lra|]. specialize (IH Hin); lra.
Qed.

Lemma rows_labelled_In X y c r :
  In r (rows_labelled X y c) -> In r (csr_rows X).
Proof.
  unfold rows_labelled; rewrite in_map_iff.
  intros ([r' l] & <- & H); apply filter_In in H; destruct H as (H & _).
  simpl; eapply in_combine_l; eauto.
Qed.

Lemma length_rows_labelled X y c :
  length y = n_rows X -> length (rows_labelled X y c) = n_count y c.
Proof.
  unfold rows_labelled, n_count, n_rows.
  generalize (csr_rows X) as rows; intros rows; revert rows.
  induction y as [|l y IH]; intros [|r rows]; simpl; try discriminate; auto.
  intros H; injection H as H.
  destruct (Z.eqb_spec l c); destruct (Z.eq_dec l c); try congruence; simpl;
    rewrite IH; auto.
Qed.

Lemma m_count_bounds X y c j :
  length y = n_rows X -> csr_binary X ->
  (0 <= m_count X y c j <= Qnat (n_count y c))%Q.
Proof.
  intros Hy Hb; unfold m_count.
  rewrite <- (@length_rows_labelled X y c Hy).
  rewrite <- (length_map (fun r => row_get r j)).
  apply Qsum_unit_cells, Forall_forall; intros x Hx.
  apply in_map_iff in Hx; destruct Hx as (r & <- & Hr).
  unfold csr_binary in Hb; rewrite Forall_forall in Hb.
  apply Hb; eapply rows_labelled_In; eauto.
Qed.

Lemma m_count_le_F_count X y k c j :
  length y = n_rows X -> csr_binary X -> (1 <= c <= Z.of_nat k)%Z ->
  (0 <= m_count X y c j <= F_count X y k j)%Q.
Proof.
  intros Hy Hb Hc; split; [now apply m_count_bounds|].
  unfold F_count.
  apply (Qsum_member_le (l := map (fun c0 => m_count X y c0 j) (classes k))).
  - apply Forall_forall; intros x Hx.
    apply in_map_iff in Hx; destruct Hx as (c' & <- & _).
    now apply m_count_bounds.
  - apply in_map_iff; exists c; split; [reflexivity|now apply classes_In].
Qed.

Lemma prior_weight_sign (n N : nat) (F : Q) :
  (1 <= n)%nat -> (1 <= N)%nat -> (0 <= F)%Q ->
  (0 <= Qnat n / 10 * F / Qnat N)%Q /\
  ((0 < F)%Q -> (0 < Qnat n / 10 * F / Qnat N)%Q) /\
  ((F == 0)%Q -> (Qnat n / 10 * F / Qnat N == 0)%Q).
Proof.
  intros Hn HN HF.
  pose proof (Qnat_le Hn) as Hn'; pose proof (Qnat_le HN) as HN'.
  change (Qnat 1) with 1%Q in Hn', HN'.
  assert (Hw : (0 < Qnat n / 10)%Q) by (apply Qlt_shift_div_l; lra).
  assert (HNi : (0 < / Qnat N)%Q) by (apply Qinv_lt_0_compat; lra).
  repeat split.
  - apply Qle_shift_div_l; [lra|].
    rewrite Qmult_0_l; apply Qmult_le_0_compat; lra.
  - intros HF'; apply Qlt_shift_div_l; [lra|].
    rewrite Qmult_0_l.
    setoid_replace 0%Q with (0 * F)%Q by ring.
    apply Qmult_lt_compat_r; assumption.
  - intros ->; unfold Qdiv; ring.
Qed.

Lemma smoothed_cell_bounds (m : Q) (n : nat) (F : Q) (N : nat) :
  (1 <= n)%nat -> (1 <= N)%nat -> (0 <= m <= Qnat n)%Q -> (m <= F)%Q ->
  (0 <= smoothed_cell m n F N < 1)%Q /\
  ((0 < smoothed_cell m n F N)%Q <-> (0 < F)%Q).
Proof.
  intros Hn HN Hm HF; unfold smoothed_cell.
  assert (HF0 : (0 <= F)%Q) by lra.
  destruct (prior_weight_sign Hn HN HF0) as (Ha & Hapos & Hazero).
  pose proof (Qnat_le Hn) as Hn'; change (Qnat 1) with 1%Q in Hn'.
  set (a := (Qnat n / 10 * F / Qnat N)%Q) in *.
  assert (Hd : (0 < Qnat n + a + 1)%Q) by lra.
  repeat split.
  - apply Qle_shift_div_l; [assumption|lra].
  - apply Qlt_shift_div_r; [assumption|lra].
  - intros He.
    destruct (Qlt_le_dec 0 F) as [|HF']; [assumption|exfalso].
    assert (E : (F == 0)%Q) by lra.
    specialize (Hazero E).
    assert (Em : (m + a == 0)%Q) by lra.
    rewrite Em in He; unfold Qdiv in He; rewrite Qmult_0_l in He; lra.
  - intros HF'; specialize (Hapos HF').
    apply Qlt_shift_div_l; [assumption|lra].
Qed.

(** * Shape and outcome of [fit] on arbitrary labels *)

Lemma np_unique_lengths y :
  length (snd (np_unique y)) = length (fst (np_unique y)).
Proof. unfold np_unique; simpl; now rewrite !length_map. Qed.

Lemma np_unique_In y c : In c (fst (np_unique y)) <-> In c y.
Proof. apply count_table_spec. Qed.

Lemma np_unique_NoDup y : NoDup (fst (np_unique y)).
Proof. apply sorted_NoDup, count_table_spec. Qed.

Lemma np_unique_n_distinct y : length (fst (np_unique y)) = n_distinct y.
Proof.
  unfold n_distinct; apply Nat.le_antisymm; apply NoDup_incl_length.
  - apply np_unique_NoDup.
  - intros c Hc; apply nodup_In; now apply np_unique_In.
  - apply NoDup_nodup.
  - intros c Hc; apply np_unique_In; now apply nodup_In in Hc.
Qed.

Lemma fit_model_unfold X y :
  fit_model X y
  = (P <- bucket_loop X y (fst (np_unique y))
            (np_zeros (length (fst (np_unique y))) (n_cols X)) ;;
     smoothed_model P (mk_df (fst (np_unique y)) (snd (np_unique y)))
                    (n_rows X)).
Proof. reflexivity. Qed.

Lemma fit_model_shape X y M :
  fit_model X y = Ok M -> nd_shape M (n_distinct y) (n_cols X).
Proof.
  rewrite fit_model_unfold, <- np_unique_n_distinct.
  destruct (bucket_loop X y _ _) as [P|] eqn:HP; cbn [bind]; [|discriminate].
  destruct (bucket_loop_shape _ _ _ _ HP) as (H1 & H2 & H3).
  destruct (np_zeros_shape (length (fst (np_unique y))) (n_cols X))
    as (Z1 & Z2 & Z3).
  assert (HPs : nd_shape P (length (fst (np_unique y))) (n_cols X)).
  { unfold nd_shape; rewrite H1, H2; auto. }
  destruct (@smoothed_model_cells P
              (mk_df (fst (np_unique y)) (snd (np_unique y)))
              (n_rows X) _ _ HPs (np_unique_lengths y))
    as (M' & -> & HM' & _).
  intros E; injection E as <-; exact HM'.
Qed.

Lemma fit_model_in_range X y :
  length y = n_rows X ->
  (forall c, In c y ->
     (1 - Z.of_nat (n_distinct y) <= c <= Z.of_nat (n_distinct y))%Z) ->
  exists M, fit_model X y = Ok M.
Proof.
  intros Hy Hr; rewrite fit_model_unfold.
  destruct (@bucket_loop_in_range X y (fst (np_unique y))
              (np_zeros (length (fst (np_unique y))) (n_cols X)) Hy)
    as (P & HP).
  { intros c Hc; unfold np_zeros; cbn [nd_rows].
    rewrite repeat_length, np_unique_n_distinct.
    apply Hr; now apply np_unique_In. }
  rewrite HP; cbn [bind].
  destruct (bucket_loop_shape _ _ _ _ HP) as (H1 & H2 & H3).
  destruct (np_zeros_shape (length (fst (np_unique y))) (n_cols X))
    as (Z1 & Z2 & Z3).
  assert (HPs : nd_shape P (length (fst (np_unique y))) (n_cols X)).
  { unfold nd_shape; rewrite H1, H2; auto. }
  destruct (@smoothed_model_cells P
              (mk_df (fst (np_unique y)) (snd (np_unique y)))
              (n_rows X) _ _ HPs (np_unique_lengths y))
    as (M & HM & _).
  eauto.
Qed.

Lemma fit_model_out_of_range X y :
  (exists c, In c y /\
     ~ (1 - Z.of_nat (n_distinct y) <= c <= Z.of_nat (n_distinct y))%Z) ->
  fit_model X y = Raise IndexError.
Proof.
  intros (c & Hc & Hbad); rewrite fit_model_unfold.
  rewrite bucket_loop_out_of_range; [reflexivity|].
  exists c; split; [now apply np_unique_In|].
  unfold np_zeros; cbn [nd_rows].
  rewrite repeat_length, np_unique_n_distinct; exact Hbad.
Qed.

Lemma labels_are_n_distinct y k : labels_are y k -> n_distinct y = k.
Proof.
  intros H; rewrite <- np_unique_n_distinct, (np_unique_labels H); simpl.
  apply length_classes.
Qed.

Lemma positive_labels_in_range y :
  (forall c, In c y -> (1 <= c <= Z.of_nat (n_distinct y))%Z) ->
  labels_are y (n_distinct y).
Proof.
  intros H c; split; [apply H|].
  intros Hc; apply np_unique_In.
  apply (@NoDup_length_incl _ (fst (np_unique y)) (classes (n_distinct y))).
  - apply np_unique_NoDup.
  - rewrite length_classes, np_unique_n_distinct; lia.
  - intros d Hd; apply classes_In, H; now apply np_unique_In.
  - now apply classes_In.
Qed.

(** * Monotonicity of the smoothing *)

Lemma map_list_set (A B : Type) (g : A -> B) (l : list A) i x :
  map g (list_set l i x) = list_set (map g l) i (g x).
Proof.
  revert i; induction l as [|a l IH]; intros [|i]; simpl; auto.
  now rewrite IH.
Qed.

Lemma Qsum_list_set (l : list Q) i x :
  (i < length l)%nat ->
  (Qsum (list_set l i x) == Qsum l + (x - nth i l 0))%Q.
Proof.
  revert i; induction l as [|a l IH]; intros [|i]; simpl; try lia.
  - intros _; ring.
  - intros H; rewrite IH by lia; ring.
Qed.

Lemma Qdiv_lt_cross (a b c d : Q) :
  (0 < b)%Q -> (0 < d)%Q -> (a * d < c * b)%Q -> (a / b < c / d)%Q.
Proof.
  intros Hb Hd H.
  apply Qlt_shift_div_l; [assumption|].
  setoid_replace (a / b * d)%Q with (a * d / b)%Q by (field; lra).
  apply Qlt_shift_div_r; assumption.
Qed.

Lemma smoothed_cell_increases (p : Q) (n : nat) (F F' : Q) (N : nat) :
  (1 <= N)%nat -> (0 <= p <= F)%Q -> (F' == F + 1)%Q ->
  (smoothed_cell p n F N < smoothed_cell (p + 1) n F' N)%Q.
Proof.
  intros HN Hp HF; unfold smoothed_cell.
  pose proof (Qnat_le HN) as HN'; change (Qnat 1) with 1%Q in HN'.
  assert (Hn : (0 <= Qnat n)%Q).
  { change 0%Q with (Qnat 0); apply Qnat_le; lia. }
  set (w := (Qnat n / 10 / Qnat N)%Q).
  assert (Hw : (0 <= w)%Q).
  { subst w; apply Qle_shift_div_l; [lra|].
    rewrite Qmult_0_l; apply Qle_shift_div_l; lra. }
  assert (Ea : (Qnat n / 10 * F / Qnat N == w * F)%Q)
    by (subst w; field; lra).
  assert (Ea' : (Qnat n / 10 * F' / Qnat N == w * F + w)%Q)
    by (subst w; rewrite HF; field; lra).
  rewrite Ea, Ea'.
  assert (HwF : (0 <= w * F)%Q) by (apply Qmult_le_0_compat; lra).
  assert (Hwp : (w * p <= w * F)%Q) by nra.
  assert (Hwn : (0 <= w * Qnat n)%Q) by (apply Qmult_le_0_compat; lra).
  apply Qdiv_lt_cross; [lra|lra|].
  ring_simplify.
  nra.
Qed.

(** * The inference engine, row by row *)

Lemma Qltb_true (x y : Q) : Qltb x y = true <-> (x < y)%Q.
Proof.
  unfold Qltb; rewrite negb_true_iff.
  destruct (Qle_bool y x) eqn:E.
  - apply Qle_bool_iff in E; split; [discriminate|intros H; lra].
  - split; [intros _|reflexivity].
    destruct (Qlt_le_dec x y) as [|H]; [assumption|].
    apply Qle_bool_iff in H; congruence.
Qed.

Lemma Qltb_false (x y : Q) : Qltb x y = false <-> (y <= x)%Q.
Proof.
  unfold Qltb; rewrite negb_false_iff; apply Qle_bool_iff.
Qed.

Lemma Qltb_irrefl (x : Q) : Qltb x x = false.
Proof. apply Qltb_false; lra. Qed.

Lemma max_from_repeat (t : Q) n : max_from t (repeat t n) = t.
Proof. induction n as [|n IH]; simpl; [|rewrite Qltb_irrefl]; auto. Qed.

Lemma argmax_from_repeat bi (t : Q) i n :
  argmax_from bi t i (repeat t n) = bi.
Proof.
  revert i; induction n as [|n IH]; intros i; simpl; [|rewrite Qltb_irrefl];
    auto.
Qed.

Lemma argmax_from_lt bi b i l :
  (bi < i)%nat -> (argmax_from bi b i l < i + length l)%nat.
Proof.
  revert bi b i; induction l as [|x l IH]; intros bi b i H; simpl; [lia|].
  destruct (Qltb b x).
  - specialize (IH i x (S i)); lia.
  - specialize (IH bi b (S i)); lia.
Qed.

Lemma map2_map_same (A B C : Type) (g : A -> B -> C) (f : A -> B) l :
  map2 g l (map f l) = map (fun x => g x (f x)) l.
Proof. induction l as [|a l IH]; simpl; [|rewrite IH]; auto. Qed.

Lemma map2_map_both (A B C D : Type) (g : B -> C -> D) (f1 : A -> B)
  (f2 : A -> C) l :
  map2 g (map f1 l) (map f2 l) = map (fun x => g (f1 x) (f2 x)) l.
Proof. induction l as [|a l IH]; simpl; [|rewrite IH]; auto. Qed.

Lemma map2_repeat (A B C : Type) (g : A -> B -> C) a b n :
  map2 g (repeat a n) (repeat b n) = repeat (g a b) n.
Proof. induction n as [|n IH]; simpl; [|rewrite IH]; auto. Qed.

Lemma map_repeat (A B : Type) (f : A -> B) a n :
  map f (repeat a n) = repeat (f a) n.
Proof. induction n as [|n IH]; simpl; [|rewrite IH]; auto. Qed.

Lemma nd_column_ok m col :
  (col < nd_cols m)%nat ->
  exists v, nd_column m col = Ok v /\ length v = length (nd_rows m).
Proof.
  intros H; unfold nd_column.
  destruct (Nat.ltb_spec col (nd_cols m)); [|lia].
  eexists; split; [reflexivity|apply length_map].
Qed.

Lemma accumulate_cols m coo J J' :
  accumulate m coo J = Ok J' -> nd_cols J' = nd_cols J.
Proof.
  revert J; induction coo as [|[r c] coo IH]; intros J; simpl.
  - intros H; injection H as <-; reflexivity.
  - destruct (nd_column m c) as [v|]; simpl; [|discriminate].
    unfold nd_iadd_row; destruct (nth_error (nd_rows J) r); simpl;
      [|discriminate].
    intros H; apply IH in H; exact H.
Qed.

Lemma accumulate_ok m coo J R :
  nd_shape J R (length (nd_rows m)) ->
  (forall r c, In (r, c) coo -> (r < R)%nat /\ (c < nd_cols m)%nat) ->
  exists J', accumulate m coo J = Ok J' /\
    nd_shape J' R (length (nd_rows m)) /\
    forall r, (forall c, ~ In (r, c) coo) ->
      nth r (nd_rows J') [] = nth r (nd_rows J) [].
Proof.
  revert J; induction coo as [|[r c] coo IH]; intros J HJ Hc; simpl.
  - exists J; auto.
  - destruct (Hc r c (or_introl eq_refl)) as (Hr & Hcol).
    destruct (nd_column_ok m Hcol) as (v & -> & Hv); simpl.
    unfold nd_iadd_row.
    pose proof HJ as (HJ1 & HJ2 & HJ3).
    destruct (nth_error (nd_rows J) r) as [row|] eqn:Er;
      [|apply nth_error_None in Er; lia]; simpl.
    destruct (IH (nd_set_row J r (map2 Qplus row v))) as (J' & HJ' & Hs & Hk).
    + unfold nd_shape; simpl; rewrite length_list_set; repeat split; auto.
      apply Forall_list_set; [assumption|].
      rewrite length_map2, Hv.
      rewrite Forall_forall in HJ3.
      rewrite (HJ3 row) by (eapply nth_error_In; eauto); lia.
    + intros r' c' H; apply Hc; now right.
    + exists J'; repeat split; try apply Hs; [exact HJ'|].
      intros r' Hr'; rewrite Hk by (intros c' H; apply (Hr' c'); now right).
      simpl; apply nth_list_set_neq.
      intros ->; apply (Hr' c); now left.
Qed.

Lemma coo_from_In s rows r c :
  In (r, c) (coo_from s rows) ->
  (s <= r)%nat /\ (r - s < length rows)%nat /\
  exists e, In e (nth (r - s) rows []) /\ fst e = c.
Proof.
  revert s; induction rows as [|row rows IH]; intros s; simpl; [tauto|].
  rewrite in_app_iff, in_map_iff; intros [(e & E & He)|H].
  - injection E as <- <-; rewrite Nat.sub_diag.
    repeat split; try lia; eauto.
  - apply IH in H; destruct H as (H1 & H2 & e & He & Hc).
    replace (r - s)%nat with (S (r - S s)) by lia.
    repeat split; try lia; eauto.
Qed.

Lemma tocoo_In X r c :
  csr_wf X -> In (r, c) (tocoo X) ->
  (r < n_rows X)%nat /\ (c < n_cols X)%nat /\ nth r (csr_rows X) [] <> [].
Proof.
  intros Hwf H; apply coo_from_In in H.
  rewrite Nat.sub_0_r in H; destruct H as (_ & Hr & e & He & <-).
  repeat split; [exact Hr| |intros E; rewrite E in He; exact He].
  unfold csr_wf in Hwf; rewrite Forall_forall in Hwf.
  specialize (Hwf _ (nth_In _ [] Hr)); rewrite Forall_forall in Hwf; auto.
Qed.

Section InferenceFacts.

Variable np_exp : Q -> Q.
Variable np_log : Q -> Q.

Lemma predict_rows self X m :
  model self = Some m ->
  length (PRIOR self) = length (nd_rows m) ->
  (1 <= length (nd_rows m))%nat ->
  predict np_exp np_log self X
  = (J <- accumulate m (tocoo X) (np_zeros (n_rows X) (length (nd_rows m))) ;;
     Ok (map (row_label np_exp (map np_log (PRIOR self))) (nd_rows J))).
Proof.
  intros Hm Hp Hk; unfold predict; rewrite Hm.
  destruct (accumulate m (tocoo X) _) as [J|] eqn:HJ; cbn [bind];
    [|reflexivity].
  apply accumulate_cols in HJ; simpl in HJ.
  unfold nd_iadd_vec.
  rewrite length_map, Hp, HJ, Nat.eqb_refl; cbn [bind].
  unfold nd_max_axis1; cbn [nd_cols nd_rowop].
  rewrite HJ.
  destruct (Nat.eqb_spec (length (nd_rows m)) 0); [lia|]; cbn [bind].
  unfold nd_argmax_axis1; cbn [nd_cols nd_colop nd_scalar nd_rowop].
  rewrite HJ.
  destruct (Nat.eqb_spec (length (nd_rows m)) 0); [lia|]; cbn [bind].
  f_equal.
  unfold nd_sum_axis1, nd_colop, nd_scalar, nd_rowop; cbn [nd_rows nd_cols].
  rewrite map2_map_same, !map_map.
  rewrite map2_map_both, !map_map.
  apply map_ext; intros row; reflexivity.
Qed.

Lemma row_label_range logp row :
  (1 <= length row)%nat -> length logp = length row ->
  (1 <= row_label np_exp logp row <= Z.of_nat (length row))%Z.
Proof.
  intros H1 H2; unfold row_label.
  set (p' := map _ (map np_exp _)).
  assert (Hl : length p' = length row).
  { subst p'; rewrite !length_map, length_map2; lia. }
  destruct p' as [|x t]; simpl in *; [lia|].
  pose proof (@argmax_from_lt 0 x 1 t); lia.
Qed.

Lemma row_label_zero_row logp_cell k :
  (1 <= k)%nat ->
  row_label np_exp (repeat logp_cell k) (repeat 0%Q k) = 1%Z.
Proof.
  intros Hk; unfold row_label.
  rewrite map2_repeat.
  destruct k as [|k]; [lia|]; simpl.
  rewrite max_from_repeat, !map_repeat, argmax_from_repeat.
  reflexivity.
Qed.

(** [predict] on an estimator whose model has as many rows as its prior
    has cells. *)
Lemma predict_total self X m :
  model self = Some m ->
  length (PRIOR self) = length (nd_rows m) ->
  (1 <= length (nd_rows m))%nat ->
  csr_wf X -> (n_cols X <= nd_cols m)%nat ->
  exists preds,
    predict np_exp np_log self X = Ok preds /\
    length preds = n_rows X /\
    Forall (fun p => (1 <= p <= Z.of_nat (length (nd_rows m)))%Z) preds /\
    forall r logp_cell,
      (r < n_rows X)%nat -> nth r (csr_rows X) [] = [] ->
      PRIOR self = repeat logp_cell (length (nd_rows m)) ->
      nth r preds 0%Z = 1%Z.
Proof.
  intros Hm Hp Hk Hwf Hc.
  rewrite (@predict_rows self X m Hm Hp Hk).
  destruct (@accumulate_ok m (tocoo X)
              (np_zeros (n_rows X) (length (nd_rows m))) (n_rows X))
    as (J & -> & HJs & Hkeep).
  { apply np_zeros_shape. }
  { intros r c H; destruct (@tocoo_In X r c Hwf H) as (? & ? & _); lia. }
  cbn [bind]; eexists; split; [reflexivity|].
  pose proof HJs as (HJ1 & HJ2 & HJ3).
  split; [now rewrite length_map|]; split.
  - apply Forall_forall; intros p Hin.
    apply in_map_iff in Hin; destruct Hin as (row & <- & Hrow).
    rewrite Forall_forall in HJ3; specialize (HJ3 _ Hrow).
    rewrite <- HJ3; apply row_label_range; [lia|].
    now rewrite length_map, Hp.
  - intros r logp_cell Hr Hrow HP.
    rewrite (nth_map_lt _ _ (@nil Q)) by lia.
    rewrite Hkeep.
    + simpl; rewrite nth_repeat_lt by assumption.
      rewrite HP, map_repeat; now apply row_label_zero_row.
    + intros c H; destruct (@tocoo_In X r c Hwf H) as (_ & _ & Hne); auto.
Qed.

Lemma row_label_two_classes u v l :
  (forall x y, (x < y)%Q -> (np_exp x < np_exp y)%Q) ->
  (forall x, (0 < np_exp x)%Q) ->
  ((v < u)%Q -> row_label np_exp [l; l] [u; v] = 1%Z) /\
  ((u < v)%Q -> row_label np_exp [l; l] [u; v] = 2%Z).
Proof.
  intros Hmono Hpos; unfold row_label; simpl.
  split; intros H.
  - assert (E : Qltb (u + l) (v + l) = false) by (apply Qltb_false; lra).
    rewrite E.
    set (e0 := np_exp (u + l - (u + l))).
    set (e1 := np_exp (v + l - (u + l))).
    assert (H01 : (e1 < e0)%Q) by (apply Hmono; lra).
    pose proof (Hpos (v + l - (u + l))%Q) as H1; fold e1 in H1.
    assert (E' : Qltb (e0 / (e0 + (e1 + 0))) (e1 / (e0 + (e1 + 0))) = false).
    { apply Qltb_false, Qlt_le_weak, Qdiv_lt_cross; try lra.
      apply Qmult_lt_compat_r; lra. }
    rewrite E'; reflexivity.
  - assert (E : Qltb (u + l) (v + l) = true) by (apply Qltb_true; lra).
    rewrite E.
    set (e0 := np_exp (u + l - (v + l))).
    set (e1 := np_exp (v + l - (v + l))).
    assert (H01 : (e0 < e1)%Q) by (apply Hmono; lra).
    pose proof (Hpos (u + l - (v + l))%Q) as H0; fold e0 in H0.
    assert (E' : Qltb (e0 / (e0 + (e1 + 0))) (e1 / (e0 + (e1 + 0))) = true).
    { apply Qltb_true, Qdiv_lt_cross; try lra.
      apply Qmult_lt_compat_r; lra. }
    rewrite E'; reflexivity.
Qed.

End InferenceFacts.

(** * The concrete instance of [np.exp] *)

Lemma exp_instance_positive (x : Q) : (0 < exp_instance x)%Q.
Proof.
  unfold exp_instance; destruct (Qle_bool 0 x) eqn:E.
  - apply Qle_bool_iff in E; lra.
  - assert (H : ~ (0 <= x)%Q) by (rewrite <- Qle_bool_iff; congruence).
    apply Qlt_shift_div_l; lra.
Qed.

Lemma exp_instance_increasing (x y : Q) :
  (x < y)%Q -> (exp_instance x < exp_instance y)%Q.
Proof.
  intros H; unfold exp_instance.
  destruct (Qle_bool 0 x) eqn:Ex; destruct (Qle_bool 0 y) eqn:Ey.
  - lra.
  - apply Qle_bool_iff in Ex.
    assert (~ (0 <= y)%Q) by (rewrite <- Qle_bool_iff; congruence). lra.
  - apply Qle_bool_iff in Ey.
    assert (~ (0 <= x)%Q) by (rewrite <- Qle_bool_iff; congruence).
    apply Qlt_shift_div_r; [lra|nra].
  - assert (~ (0 <= x)%Q) by (rewrite <- Qle_bool_iff; congruence).
    assert (~ (0 <= y)%Q) by (rewrite <- Qle_bool_iff; congruence).
    apply Qdiv_lt_cross; lra.
Qed.

(** * The estimator's state *)

Lemma init_state n self :
  AgeDetector_init n = Ok self ->
  (1 <= n)%nat /\ n_classes self = n /\ length (PRIOR self) = n /\
  PRIOR self = repeat (1 / Qnat n)%Q n /\ model self = None.
Proof.
  destruct n as [|n]; simpl; [discriminate|].
  intros H; injection H as <-; simpl.
  rewrite repeat_length; repeat split; auto; lia.
Qed.

Lemma fit_state self X y self' :
  fit self X y = Ok self' ->
  exists M, fit_model X y = Ok M /\ self' = set_model self M.
Proof.
  unfold fit; destruct (fit_model X y) as [M|]; simpl; [|discriminate].
  intros H; injection H as <-; eauto.
Qed.

Lemma nd_incr_shape P k f c j :
  nd_shape P k f -> (c < k)%nat -> nd_shape (nd_incr P c j) k f.
Proof.
  intros HP Hc; pose proof HP as (H1 & H2 & H3).
  unfold nd_shape, nd_incr; simpl; rewrite length_list_set.
  repeat split; auto.
  apply Forall_list_set; [assumption|].
  rewrite length_list_set; now apply (nd_shape_row HP).
Qed.

Lemma nd_incr_get P k f c j :
  nd_shape P k f -> (c < k)%nat -> (j < f)%nat ->
  nd_get (nd_incr P c j) c j = (nd_get P c j + 1)%Q.
Proof.
  intros HP Hc Hj; pose proof HP as (H1 & _).
  unfold nd_get at 1; unfold nd_incr; simpl.
  rewrite nth_list_set_eq by lia.
  apply nth_list_set_eq; rewrite (nd_shape_row HP); lia.
Qed.

Lemma nd_incr_column_sum P k f c j :
  nd_shape P k f -> (c < k)%nat -> (j < f)%nat ->
  (Qsum (map (fun r => nth j r 0%Q) (nd_rows (nd_incr P c j)))
   == Qsum (map (fun r => nth j r 0%Q) (nd_rows P)) + 1)%Q.
Proof.
  intros HP Hc Hj; pose proof HP as (H1 & _).
  unfold nd_incr; simpl.
  rewrite map_list_set, Qsum_list_set by (rewrite length_map; lia).
  rewrite nth_list_set_eq by (rewrite (nd_shape_row HP); lia).
  rewrite (nth_map_lt _ _ (@nil Q)) by lia.
  unfold nd_get; ring.
Qed.

Lemma column_cell_le_sum P k f c j :
  nd_shape P k f -> (c < k)%nat ->
  Forall (Forall (fun x => (0 <= x)%Q)) (nd_rows P) ->
  (0 <= nd_get P c j <= Qsum (map (fun r => nth j r 0%Q) (nd_rows P)))%Q.
Proof.
  intros HP Hc Hpos; pose proof HP as (H1 & _).
  assert (Hcell : forall r, In r (nd_rows P) -> (0 <= nth j r 0)%Q).
  { intros r Hr; rewrite Forall_forall in Hpos; specialize (Hpos _ Hr).
    destruct (Nat.lt_ge_cases j (length r)) as [Hlt|Hge].
    - rewrite Forall_forall in Hpos; apply Hpos, nth_In, Hlt.
    - rewrite nth_overflow by assumption; lra. }
  assert (Hin : In (nth c (nd_rows P) []) (nd_rows P))
    by (apply nth_In; lia).
  split; [now apply Hcell|].
  apply Qsum_member_le.
  - apply Forall_forall; intros x Hx.
    apply in_map_iff in Hx; destruct Hx as (r & <- & Hr); auto.
  - unfold nd_get; apply in_map_iff; eauto.
Qed.

(** * The claims *)

(** C1. For a fit input whose label vector is row-aligned with [X] and whose
    distinct values are exactly [1, ..., k], [fit] stores a model whose cell
    at row [c - 1], column [j] is [(m_cj + a_cj) / (n_c + a_cj + 1)], with
    [m_cj] the sum of feature [j] over the rows labelled [c], [n_c] the number
    of rows labelled [c], [F_j] the sum of [m_cj] over the classes and
    [a_cj = (n_c / 10) * F_j / n_samples]. *)
Theorem fit_cell_is_smoothed_estimate (self : AgeDetector) (X : csr_matrix)
  (y : list Z) (k : nat) :
  length y = n_rows X -> labels_are y k ->
  exists M, fit self X y = Ok (set_model self M) /\
    forall c j, (1 <= c <= Z.of_nat k)%Z -> (j < n_cols X)%nat ->
      nd_get M (Z.to_nat (c - 1)) j = smoothed_estimate X y k c j.
Proof.
  intros Hy Hl.
  destruct (fit_model_labels X Hy Hl) as (M & HM & _ & Hcells).
  exists M; split; [unfold fit; now rewrite HM|].
  intros c j Hc Hj; rewrite Hcells by assumption; reflexivity.
Qed.

Lemma fit_cell_is_smoothed_estimate_witness :
  let self := mk_AgeDetector 2 [1 # 2; 1 # 2]%Q None in
  exists M, fit self X_scenario y_scenario = Ok (set_model self M) /\
    forall c j, (1 <= c <= Z.of_nat 2)%Z -> (j < n_cols X_scenario)%nat ->
      nd_get M (Z.to_nat (c - 1)) j
      = smoothed_estimate X_scenario y_scenario 2 c j.
Proof.
  intros self; apply fit_cell_is_smoothed_estimate;
    [reflexivity | intros c; simpl; lia].
Defined.

(** C2, as the code has it.  For a row-aligned input with binary [X] and
    labels exactly [1, ..., k], every cell of the fitted model lies in
    [0 <= cell < 1], and the cell at column [j] is positive exactly when the
    feature total [F_j] is positive: a feature that no training row has gets
    the cell zero in every class. *)
Theorem fit_cells_in_unit_interval (self : AgeDetector) (X : csr_matrix)
  (y : list Z) (k : nat) :
  length y = n_rows X -> labels_are y k -> csr_binary X ->
  exists M, fit self X y = Ok (set_model self M) /\
    forall c j, (1 <= c <= Z.of_nat k)%Z -> (j < n_cols X)%nat ->
      (0 <= nd_get M (Z.to_nat (c - 1)) j < 1)%Q /\
      ((0 < nd_get M (Z.to_nat (c - 1)) j)%Q <-> (0 < F_count X y k j)%Q).
Proof.
  intros Hy Hl Hb.
  destruct (fit_model_labels X Hy Hl) as (M & HM & _ & Hcells).
  exists M; split; [unfold fit; now rewrite HM|].
  intros c j Hc Hj; rewrite Hcells by assumption.
  assert (Hin : In c y) by (now apply Hl).
  assert (Hn : (1 <= n_count y c)%nat).
  { unfold n_count; apply (count_occ_In Z.eq_dec) in Hin; lia. }
  assert (HN : (1 <= n_rows X)%nat).
  { rewrite <- Hy; destruct y; [contradiction|simpl; lia]. }
  apply smoothed_cell_bounds; auto.
  - now apply m_count_bounds.
  - now apply m_count_le_F_count.
Qed.

Lemma fit_cells_in_unit_interval_witness :
  let self := mk_AgeDetector 2 [1 # 2; 1 # 2]%Q None in
  exists M, fit self X_scenario y_scenario = Ok (set_model self M) /\
    forall c j, (1 <= c <= Z.of_nat 2)%Z -> (j < n_cols X_scenario)%nat ->
      (0 <= nd_get M (Z.to_nat (c - 1)) j < 1)%Q /\
      ((0 < nd_get M (Z.to_nat (c - 1)) j)%Q
       <-> (0 < F_count X_scenario y_scenario 2 j)%Q).
Proof.
  intros self; apply fit_cells_in_unit_interval;
    [reflexivity | intros c; simpl; lia |].
  repeat (apply Forall_cons; [intros [|[|j]]; vm_compute; auto|]).
  apply Forall_nil.
Defined.

(** C2, as stated, fails: with two classes, two binary training rows that
    both have feature 0 only, and labels 1 and 2, the fitted cell of class 1
    at feature 1 is exactly zero. *)
Lemma fit_cell_zero_counterexample :
  let X := mk_csr 2 [[(0%nat, 1%Q)]; [(0%nat, 1%Q)]] in
  let y := [1; 2]%Z in
  exists self M,
    AgeDetector_init 2 = Ok self /\
    length y = n_rows X /\ labels_are y 2 /\ csr_binary X /\
    fit self X y = Ok (set_model self M) /\
    ~ (0 < nd_get M 0 1)%Q.
Proof.
  intros X y; eexists; eexists.
  split; [reflexivity|].
  split; [reflexivity|].
  split; [intros c; simpl; lia|].
  split.
  { repeat (apply Forall_cons; [intros [|[|j]]; vm_compute; auto|]).
    apply Forall_nil. }
  split; [vm_compute; reflexivity|].
  vm_compute; discriminate.
Qed.

(** C3, as the code has it.  Whenever [fit] returns, the stored model has as
    many rows as [y] has distinct values, whatever [n_classes] the estimator
    was built with, and as many columns as [X]; [n_classes] is left as it
    was. *)
Theorem fit_model_rows_are_distinct_labels (self : AgeDetector)
  (X : csr_matrix) (y : list Z) (self' : AgeDetector) :
  fit self X y = Ok self' ->
  n_classes self' = n_classes self /\
  exists M, model self' = Some M /\ nd_shape M (n_distinct y) (n_cols X).
Proof.
  intros H; apply fit_state in H; destruct H as (M & HM & ->).
  split; [reflexivity|].
  exists M; split; [reflexivity|now apply fit_model_shape].
Qed.

Lemma fit_model_rows_are_distinct_labels_witness :
  let self := mk_AgeDetector 2 [1 # 2; 1 # 2]%Q None in
  exists self',
    fit self X_scenario y_scenario = Ok self' /\
    n_classes self' = 2%nat /\
    exists M, model self' = Some M /\ nd_shape M 2 2.
Proof.
  intros self; eexists; split; [vm_compute; reflexivity|].
  apply (@fit_model_rows_are_distinct_labels self X_scenario y_scenario).
  vm_compute; reflexivity.
Defined.

(** C3, as stated, fails: an estimator built with [n_classes = 3] and fitted
    on two rows that both carry label 1 stores a model with one row. *)
Lemma fit_row_count_counterexample :
  let X := mk_csr 1 [[(0%nat, 1%Q)]; [(0%nat, 1%Q)]] in
  let y := [1; 1]%Z in
  exists self self' M,
    AgeDetector_init 3 = Ok self /\
    fit self X y = Ok self' /\ model self' = Some M /\
    length (nd_rows M) = 1%nat /\ length (nd_rows M) <> n_classes self'.
Proof.
  intros X y; eexists; eexists; eexists.
  split; [reflexivity|].
  split; [vm_compute; reflexivity|].
  split; [reflexivity|].
  split; [reflexivity|simpl; lia].
Qed.

(** C9. Calling [fit] a second time with the same [(X, y)] leaves exactly the
    estimator the first call produced; when the first call raises, so does
    the sequence, with the same exception. *)
Theorem fit_twice_is_fit_once (self : AgeDetector) (X : csr_matrix)
  (y : list Z) :
  (s <- fit self X y ;; fit s X y) = fit self X y.
Proof.
  unfold fit; destruct (fit_model X y) as [M|e]; reflexivity.
Qed.

(** C6. In the smoothing of a well-shaped, non-negative count matrix with
    [n_data >= 1], adding one to the single count at [(c, j)], the bucket
    counts and the sample count being the same, strictly increases the model
    cell at [(c, j)]. *)
Theorem smoothing_is_monotone (pos_counts : ndarray) (bucket_counts : DataFrame)
  (n_data k f c j : nat) :
  nd_shape pos_counts k f -> length (values bucket_counts) = k ->
  Forall (Forall (fun x => (0 <= x)%Q)) (nd_rows pos_counts) ->
  (1 <= n_data)%nat -> (c < k)%nat -> (j < f)%nat ->
  exists M M',
    smoothed_model pos_counts bucket_counts n_data = Ok M /\
    smoothed_model (nd_incr pos_counts c j) bucket_counts n_data = Ok M' /\
    (nd_get M c j < nd_get M' c j)%Q.
Proof.
  intros HP Hbc Hpos HN Hc Hj.
  destruct (@smoothed_model_cells pos_counts bucket_counts n_data k f HP Hbc)
    as (M & HM & _ & Hcell).
  destruct (@smoothed_model_cells (nd_incr pos_counts c j) bucket_counts
              n_data k f (@nd_incr_shape pos_counts k f c j HP Hc) Hbc)
    as (M' & HM' & _ & Hcell').
  exists M, M'; split; [exact HM|]; split; [exact HM'|].
  rewrite Hcell, Hcell' by assumption.
  rewrite (@nd_incr_get pos_counts k f c j HP Hc Hj).
  apply smoothed_cell_increases; [assumption| |].
  - now apply (@column_cell_le_sum pos_counts k f c j HP Hc).
  - now apply (@nd_incr_column_sum pos_counts k f c j HP Hc Hj).
Qed.

Lemma smoothing_is_monotone_witness :
  let P := mk_nd 2 [[2; 0]; [0; 2]]%Q in
  let bc := mk_df [1; 2]%Z [2; 2]%nat in
  exists M M',
    smoothed_model P bc 4 = Ok M /\
    smoothed_model (nd_incr P 0 1) bc 4 = Ok M' /\
    (nd_get M 0 1 < nd_get M' 0 1)%Q.
Proof.
  intros P bc.
  apply (@smoothing_is_monotone P bc 4 2 2 0 1); try (simpl; lia).
  - repeat split; repeat constructor.
  - repeat constructor; vm_compute; discriminate.
Defined.

Lemma predict_after_fit (np_exp np_log : Q -> Q) (n : nat)
  (self0 : AgeDetector) (Xt : csr_matrix) (yt : list Z) (self : AgeDetector)
  (X : csr_matrix) :
  AgeDetector_init n = Ok self0 ->
  fit self0 Xt yt = Ok self ->
  n_distinct yt = n ->
  csr_wf X -> n_cols X = n_cols Xt ->
  n_classes self = n /\
  exists preds,
    predict np_exp np_log self X = Ok preds /\
    length preds = n_rows X /\
    Forall (fun p => (1 <= p <= Z.of_nat n)%Z) preds /\
    forall r, (r < n_rows X)%nat -> nth r (csr_rows X) [] = [] ->
      nth r preds 0%Z = 1%Z.
Proof.
  intros Hinit Hfit Hn Hwf Hcols.
  destruct (@init_state n self0 Hinit) as (Hn1 & Hnc & Hlen & Hprior & _).
  apply fit_state in Hfit; destruct Hfit as (M & HM & ->).
  apply fit_model_shape in HM; rewrite Hn in HM.
  destruct HM as (Hrows & Hcol & _).
  split; [exact Hnc|].
  destruct (@predict_total np_exp np_log (set_model self0 M) X M)
    as (preds & Hp & Hl & Hrange & Hzero); simpl; try lia; auto.
  exists preds; rewrite Hrows in Hrange; repeat split; auto.
  intros r Hr Hrow; apply (Hzero r (1 / Qnat n)%Q Hr Hrow).
  now rewrite Hrows.
Qed.

(** C4, as the code has it.  For an estimator built with [n] classes and
    fitted on training data that shows [n] distinct labels, [predict] on any
    well-formed [X] with the training column count returns one label per row
    of [X], each in [1, n_classes]. *)
Theorem predict_one_label_per_row (np_exp np_log : Q -> Q) (n : nat)
  (self0 : AgeDetector) (Xt : csr_matrix) (yt : list Z) (self : AgeDetector)
  (X : csr_matrix) :
  AgeDetector_init n = Ok self0 ->
  fit self0 Xt yt = Ok self ->
  n_distinct yt = n ->
  csr_wf X -> n_cols X = n_cols Xt ->
  exists preds,
    predict np_exp np_log self X = Ok preds /\
    length preds = n_rows X /\
    Forall (fun p => (1 <= p <= Z.of_nat (n_classes self))%Z) preds.
Proof.
  intros Hinit Hfit Hn Hwf Hcols.
  destruct (@predict_after_fit np_exp np_log n self0 Xt yt self X Hinit Hfit
              Hn Hwf Hcols)
    as (-> & preds & Hp & Hl & Hr & _).
  exists preds; auto.
Qed.

(** C4, as stated, fails: an estimator built with [n_classes = 3] and
    fitted on labels [1; 2], all within [1, 3], holds a two-row model, and
    [predict] on a matrix with the model's column count raises [ValueError]
    where the three-cell log-prior is added to two-cell score rows. *)
Lemma predict_missing_class_counterexample :
  let Xt := mk_csr 1 [[(0%nat, 1%Q)]; []] in
  let yt := [1; 2]%Z in
  let X := mk_csr 1 [[(0%nat, 1%Q)]] in
  exists self0 self,
    AgeDetector_init 3 = Ok self0 /\
    length yt = n_rows Xt /\
    (forall c, In c yt -> (1 <= c <= 3)%Z) /\
    fit self0 Xt yt = Ok self /\
    csr_wf X /\ n_cols X = n_cols Xt /\
    predict exp_instance (fun x => x) self X = Raise ValueError.
Proof.
  intros Xt yt X; eexists; eexists.
  split; [reflexivity|].
  split; [reflexivity|].
  split; [intros c; simpl; lia|].
  split; [vm_compute; reflexivity|].
  split; [repeat constructor|].
  split; [reflexivity|].
  vm_compute; reflexivity.
Qed.

(** C7, as the code has it.  For an estimator built with [n] classes and
    fitted on training data that shows [n] distinct labels, a row of [X] without any stored entry gets
    label 1: its scores are the equal cells of the uniform log-prior, and the
    first position of the maximum is taken. *)
Theorem predict_zero_row_is_class_one (np_exp np_log : Q -> Q) (n : nat)
  (self0 : AgeDetector) (Xt : csr_matrix) (yt : list Z) (self : AgeDetector)
  (X : csr_matrix) (r : nat) :
  AgeDetector_init n = Ok self0 ->
  fit self0 Xt yt = Ok self ->
  n_distinct yt = n ->
  csr_wf X -> n_cols X = n_cols Xt ->
  (r < n_rows X)%nat -> nth r (csr_rows X) [] = [] ->
  exists preds,
    predict np_exp np_log self X = Ok preds /\
    length preds = n_rows X /\
    nth r preds 0%Z = 1%Z /\ (1 <= 1 <= Z.of_nat (n_classes self))%Z.
Proof.
  intros Hinit Hfit Hn Hwf Hcols Hr Hrow.
  destruct (@init_state n self0 Hinit) as (Hn1 & _).
  destruct (@predict_after_fit np_exp np_log n self0 Xt yt self X Hinit Hfit
              Hn Hwf Hcols)
    as (-> & preds & Hp & Hl & _ & Hz).
  exists preds; repeat split; auto; lia.
Qed.

(** C8, as the code has it.  On an estimator that was built and never
    successfully fitted, [predict] raises [AttributeError], the exception of
    reading [shape] from the unset model. *)
Theorem predict_unfitted_raises (np_exp np_log : Q -> Q) (n : nat)
  (self : AgeDetector) (X : csr_matrix) :
  AgeDetector_init n = Ok self ->
  predict np_exp np_log self X = Raise AttributeError.
Proof.
  intros H; destruct (@init_state n self H) as (_ & _ & _ & _ & Hm).
  unfold predict; now rewrite Hm.
Qed.

Lemma predict_unfitted_raises_witness :
  exists self,
    AgeDetector_init 7 = Ok self /\
    predict exp_instance (fun x => x) self (mk_csr 1 [[(0%nat, 1%Q)]])
    = Raise AttributeError.
Proof.
  eexists; split; [reflexivity|].
  apply (@predict_unfitted_raises exp_instance (fun x => x) 7); reflexivity.
Defined.

(** C8, as stated, fails: the failure of [predict] on a fresh estimator is
    the null dereference itself. *)
Lemma predict_unfitted_counterexample :
  exists self e,
    AgeDetector_init 7 = Ok self /\
    predict exp_instance (fun x => x) self (mk_csr 1 [[]]) = Raise e /\
    null_dereference e.
Proof.
  eexists; eexists; split; [reflexivity|].
  split; reflexivity.
Qed.

(** C10, as the code has it.  With [k] the number of distinct values of a
    row-aligned [y]: [fit] returns when every label lies in [1 - k, k], a
    label [c <= 0] being stored at row [k + c - 1] by numpy's negative
    indexing; it raises [IndexError] when some label lies outside that range;
    and for labels that are all at least 1 it returns exactly when the
    distinct labels are [1, ..., k]. *)
Theorem fit_bucketing_outcome (self : AgeDetector) (X : csr_matrix)
  (y : list Z) :
  length y = n_rows X ->
  ((forall c, In c y ->
      (1 - Z.of_nat (n_distinct y) <= c <= Z.of_nat (n_distinct y))%Z) ->
   exists self', fit self X y = Ok self') /\
  ((exists c, In c y /\
      ~ (1 - Z.of_nat (n_distinct y) <= c <= Z.of_nat (n_distinct y))%Z) ->
   fit self X y = Raise IndexError) /\
  ((forall c, In c y -> (1 <= c)%Z) ->
   ((exists self', fit self X y = Ok self') <-> labels_are y (n_distinct y))).
Proof.
  intros Hy.
  assert (Hok : (forall c, In c y ->
      (1 - Z.of_nat (n_distinct y) <= c <= Z.of_nat (n_distinct y))%Z) ->
      exists self', fit self X y = Ok self').
  { intros Hr; destruct (@fit_model_in_range X y Hy Hr) as (M & HM).
    exists (set_model self M); unfold fit; now rewrite HM. }
  assert (Hbad : (exists c, In c y /\
      ~ (1 - Z.of_nat (n_distinct y) <= c <= Z.of_nat (n_distinct y))%Z) ->
      fit self X y = Raise IndexError).
  { intros H; unfold fit; now rewrite (@fit_model_out_of_range X y H). }
  split; [exact Hok|]; split; [exact Hbad|].
  intros Hpos; split.
  - intros (self' & Hfit).
    apply positive_labels_in_range; intros c Hc.
    split; [now apply Hpos|].
    destruct (Z_le_gt_dec c (Z.of_nat (n_distinct y))) as [|Hgt];
      [assumption|exfalso].
    rewrite Hbad in Hfit; [discriminate|].
    exists c; split; [assumption|lia].
  - intros Hl; apply Hok; intros c Hc; apply Hl in Hc; lia.
Qed.

Lemma fit_bucketing_outcome_witness :
  let self := mk_AgeDetector 2 [1 # 2; 1 # 2]%Q None in
  exists self', fit self X_scenario y_scenario = Ok self'.
Proof.
  intros self.
  apply (proj1 (@fit_bucketing_outcome self X_scenario y_scenario eq_refl)).
  intros c; vm_compute; intuition (subst; discriminate).
Defined.

(** C10, as stated, fails: the labels [0; 1] are not the range [1, 2], and
    [fit] returns. *)
Lemma fit_label_zero_counterexample :
  let X := mk_csr 1 [[(0%nat, 1%Q)]; []] in
  let y := [0; 1]%Z in
  exists self self',
    AgeDetector_init 2 = Ok self /\
    length y = n_rows X /\ n_distinct y = 2%nat /\ ~ labels_are y 2 /\
    fit self X y = Ok self'.
Proof.
  intros X y; eexists; eexists.
  split; [reflexivity|].
  split; [reflexivity|].
  split; [reflexivity|].
  split; [|vm_compute; reflexivity].
  intros H; specialize (proj1 (H 0%Z)); simpl; lia.
Qed.

Lemma scenario_init : AgeDetector_init 2 = Ok self0_scenario.
Proof. reflexivity. Qed.

Lemma scenario_fit :
  fit self0_scenario X_scenario y_scenario = Ok self_scenario.
Proof. vm_compute; reflexivity. Qed.

Lemma predict_one_label_per_row_witness :
  let X := mk_csr 2 [[(0%nat, 1%Q)]; []; [(1%nat, 1%Q); (0%nat, 1%Q)]] in
  exists preds,
    predict exp_instance (fun x => x) self_scenario X = Ok preds /\
    length preds = n_rows X /\
    Forall (fun p => (1 <= p <= Z.of_nat (n_classes self_scenario))%Z) preds.
Proof.
  intros X.
  apply (@predict_one_label_per_row exp_instance (fun x => x) 2
           self0_scenario X_scenario y_scenario self_scenario X
           scenario_init scenario_fit eq_refl).
  - repeat constructor.
  - reflexivity.
Defined.

Lemma predict_zero_row_is_class_one_witness :
  let X := mk_csr 2 [[(0%nat, 1%Q)]; []; [(1%nat, 1%Q); (0%nat, 1%Q)]] in
  exists preds,
    predict exp_instance (fun x => x) self_scenario X = Ok preds /\
    length preds = n_rows X /\
    nth 1 preds 0%Z = 1%Z /\
    (1 <= 1 <= Z.of_nat (n_classes self_scenario))%Z.
Proof.
  intros X.
  apply (@predict_zero_row_is_class_one exp_instance (fun x => x) 2
           self0_scenario X_scenario y_scenario self_scenario X 1
           scenario_init scenario_fit eq_refl).
  - repeat constructor.
  - reflexivity.
  - subst X; unfold n_rows; simpl; lia.
  - reflexivity.
Defined.

(** C7, as stated, fails twice.  An estimator built with [n_classes = 3] and
    fitted on labels [1; 2] raises [ValueError] on an input whose only row
    has no entry at all.  And on the estimator of the scenario, a row whose
    cells are all zero but which stores an explicit zero at column 1 is
    scored with that column and gets class 2. *)
Lemma predict_zero_row_counterexample :
  let Xt := mk_csr 1 [[(0%nat, 1%Q)]; []] in
  let yt := [1; 2]%Z in
  let X := mk_csr 1 [[]] in
  let X0 := mk_csr 2 [[(1%nat, 0%Q)]] in
  (exists self0 self,
     AgeDetector_init 3 = Ok self0 /\
     length yt = n_rows Xt /\
     (forall c, In c yt -> (1 <= c <= 3)%Z) /\
     fit self0 Xt yt = Ok self /\
     csr_wf X /\ n_cols X = n_cols Xt /\
     nth 0 (csr_rows X) [] = [] /\
     predict exp_instance (fun x => x) self X = Raise ValueError) /\
  (csr_wf X0 /\ n_cols X0 = n_cols X_scenario /\
   (forall j, (row_get (nth 0 (csr_rows X0) []) j == 0)%Q) /\
   predict exp_instance (fun x => x) self_scenario X0 = Ok [2%Z]).
Proof.
  intros Xt yt X X0; split.
  - eexists; eexists.
    split; [reflexivity|].
    split; [reflexivity|].
    split; [intros c; simpl; lia|].
    split; [vm_compute; reflexivity|].
    split; [repeat constructor|].
    split; [reflexivity|].
    split; [reflexivity|vm_compute; reflexivity].
  - split; [repeat constructor|].
    split; [reflexivity|].
    split; [intros [|[|j]]; vm_compute; reflexivity|].
    vm_compute; reflexivity.
Qed.

(** C5. With two classes, fitting on the rows [[1,0]; [1,0]; [0,1]; [0,1]]
    with labels [1; 1; 2; 2] gives a model whose class-1 row is larger at
    feature 0 than at feature 1 and whose class-2 row is larger at feature 1
    than at feature 0; [predict] then answers class 1 on [[1,0]] and class 2
    on [[0,1]], for any strictly increasing positive [np.exp]. *)
Theorem end_to_end_scenario (np_exp np_log : Q -> Q) :
  (forall x y, (x < y)%Q -> (np_exp x < np_exp y)%Q) ->
  (forall x, (0 < np_exp x)%Q) ->
  exists self0 self M,
    AgeDetector_init 2 = Ok self0 /\
    fit self0 X_scenario y_scenario = Ok self /\
    model self = Some M /\
    (nd_get M 0 1 < nd_get M 0 0)%Q /\
    (nd_get M 1 0 < nd_get M 1 1)%Q /\
    predict np_exp np_log self (mk_csr 2 [[(0%nat, 1%Q)]]) = Ok [1%Z] /\
    predict np_exp np_log self (mk_csr 2 [[(1%nat, 1%Q)]]) = Ok [2%Z].
Proof.
  intros Hmono Hpos.
  exists self0_scenario, self_scenario, model_scenario.
  split; [exact scenario_init|].
  split; [exact scenario_fit|].
  split; [reflexivity|].
  split; [vm_compute; reflexivity|].
  split; [vm_compute; reflexivity|].
  split.
  - rewrite (@predict_rows np_exp np_log self_scenario _ model_scenario
               eq_refl eq_refl) by (simpl; lia).
    set (acc := accumulate _ _ _); vm_compute in acc; subst acc.
    cbn [bind nd_rows map].
    f_equal; f_equal.
    apply (row_label_two_classes np_exp _ _ _ Hmono Hpos).
    vm_compute; reflexivity.
  - rewrite (@predict_rows np_exp np_log self_scenario _ model_scenario
               eq_refl eq_refl) by (simpl; lia).
    set (acc := accumulate _ _ _); vm_compute in acc; subst acc.
    cbn [bind nd_rows map].
    f_equal; f_equal.
    apply (row_label_two_classes np_exp _ _ _ Hmono Hpos).
    vm_compute; reflexivity.
Qed.

Lemma end_to_end_scenario_witness :
  exists self0 self M,
    AgeDetector_init 2 = Ok self0 /\
    fit self0 X_scenario y_scenario = Ok self /\
    model self = Some M /\
    (nd_get M 0 1 < nd_get M 0 0)%Q /\
    (nd_get M 1 0 < nd_get M 1 1)%Q /\
    predict exp_instance (fun x => x) self (mk_csr 2 [[(0%nat, 1%Q)]])
    = Ok [1%Z] /\
    predict exp_instance (fun x => x) self (mk_csr 2 [[(1%nat, 1%Q)]])
    = Ok [2%Z].
Proof.
  apply (@end_to_end_scenario exp_instance (fun x => x)
           exp_instance_increasing exp_instance_positive).
Defined.

(** * Further properties of the estimator *)

Lemma fit_model_error X y e : fit_model X y = Raise e -> e = IndexError.
Proof.
  rewrite fit_model_unfold.
  destruct (bucket_loop X y _ _) as [P|e'] eqn:HP; cbn [bind].
  - destruct (bucket_loop_shape _ _ _ _ HP) as (H1 & H2 & H3).
    destruct (np_zeros_shape (length (fst (np_unique y))) (n_cols X))
      as (Z1 & Z2 & Z3).
    assert (HPs : nd_shape P (length (fst (np_unique y))) (n_cols X)).
    { unfold nd_shape; rewrite H1, H2; auto. }
    destruct (@smoothed_model_cells P
                (mk_df (fst (np_unique y)) (snd (np_unique y)))
                (n_rows X) _ _ HPs (np_unique_lengths y))
      as (M & -> & _).
    discriminate.
  - intros H; injection H as <-; eapply bucket_loop_error; eauto.
Qed.

Lemma fit_error (self : AgeDetector) (X : csr_matrix) (y : list Z)
  (e : exception) :
  fit self X y = Raise e -> e = IndexError.
Proof.
  unfold fit; destruct (fit_model X y) as [M|e'] eqn:E; simpl; [discriminate|].
  intros H; injection H as <-; eapply fit_model_error; eauto.
Qed.

(** The only exception [fit] raises is [IndexError]: once the bucketing loop
    is through, the smoothing and the division always go through, whatever
    the counts are. *)
Theorem fit_raises_only_IndexError (self : AgeDetector) (X : csr_matrix)
  (y : list Z) (e : exception) :
  fit self X y = Raise e -> e = IndexError.
Proof.
  intros H.
  exact (@fit_error self X y e H).
Qed.

Lemma fit_raises_only_IndexError_witness :
  fit self0_scenario (mk_csr 1 [[(0%nat, 1%Q)]; []]) [1; 3]%Z
  = Raise IndexError.
Proof.
  assert (H : exists e,
    fit self0_scenario (mk_csr 1 [[(0%nat, 1%Q)]; []]) [1; 3]%Z = Raise e).
  { eexists; vm_compute; reflexivity. }
  destruct H as (e & He); rewrite He; f_equal.
  exact (@fit_raises_only_IndexError _ _ _ e He).
Defined.

Lemma nonzero_from_In s mask i :
  (s <= i)%nat -> nth (i - s) mask false = true ->
  In i (nonzero_from s mask).
Proof.
  revert s; induction mask as [|b mask IH]; intros s Hs Hn; simpl in *.
  - destruct (i - s)%nat; discriminate.
  - destruct (Nat.eq_dec i s) as [->|Hne].
    + rewrite Nat.sub_diag in Hn; subst b; now left.
    + replace (i - s)%nat with (S (i - S s)) in Hn by lia.
      assert (In i (nonzero_from (S s) mask)) by (apply IH; [lia|exact Hn]).
      destruct b; [now right|assumption].
Qed.

Lemma take_rows_bounds rows idx rs i :
  take_rows rows idx = Ok rs -> In i idx -> (i < length rows)%nat.
Proof.
  revert rs; induction idx as [|j idx IH]; intros rs; simpl; [tauto|].
  destruct (nth_error rows j) as [r|] eqn:E; [|discriminate].
  destruct (take_rows rows idx) as [rs'|]; simpl; [|discriminate].
  intros _ [->|Hin]; [|eapply IH; eauto].
  apply nth_error_Some; congruence.
Qed.

Lemma bucket_loop_selects X y bins P P' cat :
  bucket_loop X y bins P = Ok P' -> In cat bins ->
  exists sel, csr_getitem_mask X (map (fun l => (l =? cat)%Z) y) = Ok sel.
Proof.
  revert P; induction bins as [|c bins IH]; intros P; simpl; [tauto|].
  destruct (csr_getitem_mask X (map (fun l => (l =? c)%Z) y)) as [sel|] eqn:Es;
    simpl; [|discriminate].
  destruct (np_index _ _) as [i|]; simpl; [|discriminate].
  intros H [->|Hin]; [eauto|eapply IH; eauto].
Qed.

(** A label vector longer than [X] has rows makes [fit] raise [IndexError]:
    the mask of the label at the first position past the rows selects a row
    that does not exist. *)
Theorem fit_more_labels_than_rows (self : AgeDetector) (X : csr_matrix)
  (y : list Z) :
  (n_rows X < length y)%nat -> fit self X y = Raise IndexError.
Proof.
  intros Hlen.
  destruct (fit self X y) as [self'|e] eqn:Hfit;
    [exfalso|f_equal; eapply fit_error; eauto].
  apply fit_state in Hfit; destruct Hfit as (M & HM & _).
  rewrite fit_model_unfold in HM.
  destruct (bucket_loop X y _ _) as [P|] eqn:HP; [|discriminate].
  set (c := nth (n_rows X) y 0%Z).
  assert (Hc : In c (fst (np_unique y))).
  { apply np_unique_In; subst c; now apply nth_In. }
  destruct (bucket_loop_selects _ _ _ _ c HP Hc) as (sel & Hsel).
  unfold csr_getitem_mask in Hsel.
  destruct (take_rows (csr_rows X) _) as [rs|] eqn:Ht; [|discriminate].
  assert (Hin : In (n_rows X) (nonzero (map (fun l => (l =? c)%Z) y))).
  { apply nonzero_from_In; [lia|].
    rewrite Nat.sub_0_r, (nth_map_lt _ _ 0%Z) by assumption.
    subst c; apply Z.eqb_refl. }
  pose proof (take_rows_bounds _ _ _ Ht Hin) as Hb.
  unfold n_rows in Hb; lia.
Qed.

Lemma fit_more_labels_than_rows_witness :
  fit self0_scenario (mk_csr 1 [[(0%nat, 1%Q)]]) [1; 1]%Z = Raise IndexError.
Proof.
  apply fit_more_labels_than_rows; unfold n_rows; simpl; lia.
Defined.

(** * Further properties of the inference engine *)

Lemma accumulate_error m coo J e :
  accumulate m coo J = Raise e -> e = IndexError.
Proof.
  revert J; induction coo as [|[r c] coo IH]; intros J; simpl; [discriminate|].
  unfold nd_column, nd_iadd_row.
  destruct (c <? nd_cols m)%nat; simpl; [|congruence].
  destruct (nth_error (nd_rows J) r); simpl; [apply IH|congruence].
Qed.

Lemma accumulate_column_out_of_range m coo J :
  (exists r c, In (r, c) coo /\ (nd_cols m <= c)%nat) ->
  accumulate m coo J = Raise IndexError.
Proof.
  intros H.
  destruct (accumulate m coo J) as [J'|e] eqn:E;
    [exfalso|f_equal; eapply accumulate_error; eauto].
  revert J E; induction coo as [|[r0 c0] coo IH]; intros J;
    destruct H as (r & c & Hin & Hc); simpl in *; [contradiction|].
  unfold nd_column.
  destruct (Nat.ltb_spec c0 (nd_cols m)) as [Hlt|Hge]; simpl; [|discriminate].
  destruct (nd_iadd_row J r0 _) as [J1|]; simpl; [|discriminate].
  destruct Hin as [E|Hin]; [injection E as -> ->; lia|].
  apply IH; eauto.
Qed.

Lemma coo_from_member s rows row e :
  In row rows -> In e row -> exists r, In (r, fst e) (coo_from s rows).
Proof.
  revert s; induction rows as [|r0 rows IH]; intros s; simpl; [tauto|].
  intros [->|Hin] He.
  - exists s; apply in_or_app; left.
    apply in_map_iff; exists e; auto.
  - destruct (IH (S s) Hin He) as (r & Hr).
    exists r; apply in_or_app; now right.
Qed.

Lemma coo_from_columns s rows rows' :
  map (map fst) rows = map (map fst) rows' ->
  coo_from s rows = coo_from s rows'.
Proof.
  revert s rows'; induction rows as [|r rows IH]; intros s [|r' rows'];
    simpl; try discriminate; auto.
  intros H; injection H as Hr Hrows.
  rewrite (IH (S s) rows' Hrows); f_equal.
  rewrite <- (map_map fst (fun c => (s, c)) r).
  rewrite <- (map_map fst (fun c => (s, c)) r').
  now rewrite Hr.
Qed.

Lemma nd_colop_shape op a v r c :
  nd_shape a r c -> length v = r -> nd_shape (nd_colop op a v) r c.
Proof.
  intros (Hr & Hc & Hf) Hv; unfold nd_shape; simpl.
  rewrite length_map2, Hr, Hv; repeat split; auto; [lia|].
  apply Forall_forall; intros row Hrow.
  destruct (In_nth _ _ (@nil Q) Hrow) as (i & Hi & <-).
  rewrite length_map2 in Hi.
  rewrite (nth_map2 _ _ _ _ (@nil Q) 0%Q) by lia.
  rewrite length_map; rewrite Forall_forall in Hf.
  apply Hf, nth_In; lia.
Qed.

Lemma accumulate_shape m coo J J' R :
  accumulate m coo J = Ok J' ->
  nd_shape J R (length (nd_rows m)) ->
  nd_shape J' R (length (nd_rows m)).
Proof.
  revert J; induction coo as [|[r c] coo IH]; intros J; simpl.
  - intros H; injection H as <-; auto.
  - unfold nd_column, nd_iadd_row.
    destruct (c <? nd_cols m)%nat; simpl; [|discriminate].
    destruct (nth_error (nd_rows J) r) as [row|] eqn:Er; simpl;
      [|discriminate].
    intros H (H1 & H2 & H3); apply (IH _ H).
    unfold nd_shape; simpl; rewrite length_list_set; repeat split; auto.
    apply Forall_list_set; [assumption|].
    rewrite length_map2, length_map.
    rewrite Forall_forall in H3.
    rewrite (H3 row) by (eapply nth_error_In; eauto); lia.
Qed.

Section InferenceEdges.

Variable np_exp : Q -> Q.
Variable np_log : Q -> Q.

(** With a model set, a stored entry of [X] whose column is at or past the
    model's column count makes [predict] raise [IndexError]. *)
Theorem predict_column_out_of_range (self : AgeDetector) (X : csr_matrix)
  (m : ndarray) (row : sparse_row) (e : nat * Q) :
  model self = Some m ->
  In row (csr_rows X) -> In e row -> (nd_cols m <= fst e)%nat ->
  predict np_exp np_log self X = Raise IndexError.
Proof.
  intros Hm Hrow He Hc; unfold predict; rewrite Hm.
  destruct (coo_from_member 0 _ _ _ Hrow He) as (r & Hr).
  rewrite accumulate_column_out_of_range; [reflexivity|].
  exists r, (fst e); split; assumption.
Qed.

(** [predict] reads the coordinates of the stored entries only: two inputs
    with the same stored columns in every row get the same answer, whatever
    the stored values and the declared column counts are. *)
Theorem predict_ignores_stored_values (self : AgeDetector)
  (X X' : csr_matrix) :
  map (map fst) (csr_rows X) = map (map fst) (csr_rows X') ->
  predict np_exp np_log self X = predict np_exp np_log self X'.
Proof.
  intros H; unfold predict, tocoo, n_rows.
  rewrite (coo_from_columns 0 _ _ H).
  replace (length (csr_rows X)) with (length (csr_rows X')); [reflexivity|].
  apply (f_equal (@length (list nat))) in H.
  rewrite !length_map in H; symmetry; exact H.
Qed.

Lemma predict_mismatch (self : AgeDetector) (X : csr_matrix)
  (m : ndarray) :
  model self = Some m ->
  length (PRIOR self) <> length (nd_rows m) ->
  length (PRIOR self) <> 1%nat ->
  csr_wf X -> (n_cols X <= nd_cols m)%nat ->
  predict np_exp np_log self X = Raise ValueError.
Proof.
  intros Hm Hk H1 Hwf Hc; unfold predict; rewrite Hm.
  destruct (@accumulate_ok m (tocoo X)
              (np_zeros (n_rows X) (length (nd_rows m))) (n_rows X))
    as (J & -> & (_ & HJ & _) & _).
  { apply np_zeros_shape. }
  { intros r c H; destruct (@tocoo_In X r c Hwf H) as (? & ? & _); lia. }
  cbn [bind]; unfold nd_iadd_vec.
  rewrite length_map, HJ.
  destruct (Nat.eqb_spec (length (PRIOR self)) (length (nd_rows m)));
    [contradiction|].
  destruct (Nat.eqb_spec (length (PRIOR self)) 1); [contradiction|].
  reflexivity.
Qed.


(** When the model's row count differs from the number of prior cells, and
    the prior has more than one cell, [predict] raises [ValueError] on every
    well-formed input within the model's columns: the log-prior cannot be
    added to the score rows. *)
Theorem predict_class_count_mismatch (self : AgeDetector) (X : csr_matrix)
  (m : ndarray) :
  model self = Some m ->
  length (PRIOR self) <> length (nd_rows m) ->
  length (PRIOR self) <> 1%nat ->
  csr_wf X -> (n_cols X <= nd_cols m)%nat ->
  predict np_exp np_log self X = Raise ValueError.
Proof.
  intros Hm Hk H1 Hwf Hc.
  exact (@predict_mismatch self X m Hm Hk H1 Hwf Hc).
Qed.

Lemma predict_ok_shape (self : AgeDetector) (X : csr_matrix)
  (preds : list Z) :
  predict np_exp np_log self X = Ok preds ->
  exists m, model self = Some m /\
    length preds = n_rows X /\
    Forall (fun p => (1 <= p <= Z.of_nat (length (nd_rows m)))%Z) preds.
Proof.
  unfold predict; destruct (model self) as [m|]; [|discriminate].
  intros H; exists m; split; [reflexivity|].
  destruct (accumulate m (tocoo X) _) as [J|] eqn:HJ; cbn [bind] in H;
    [|discriminate].
  pose proof (accumulate_shape _ _ HJ (np_zeros_shape _ _)) as HJs.
  destruct (nd_iadd_vec J _) as [J1|] eqn:H1; cbn [bind] in H; [|discriminate].
  assert (HJ1 : nd_shape J1 (n_rows X) (length (nd_rows m))).
  { unfold nd_iadd_vec in H1.
    destruct (Nat.eqb_spec (length (map np_log (PRIOR self))) (nd_cols J))
      as [E|_].
    - injection H1 as <-; apply nd_rowop_shape; [assumption|].
      rewrite E; apply HJs.
    - destruct (Nat.eqb (length (map np_log (PRIOR self))) 1);
        [|discriminate].
      injection H1 as <-; now apply nd_scalar_shape. }
  pose proof HJ1 as (Hr1 & Hc1 & _).
  unfold nd_max_axis1 in H; rewrite Hc1 in H.
  destruct (Nat.eqb_spec (length (nd_rows m)) 0) as [|Hk];
    cbn [bind] in H; [discriminate|].
  unfold nd_argmax_axis1 in H; cbn [nd_cols nd_colop nd_scalar] in H.
  rewrite Hc1 in H.
  destruct (Nat.eqb_spec (length (nd_rows m)) 0); cbn [bind] in H;
    [contradiction|].
  injection H as <-.
  set (J2 := nd_colop Qminus J1 _) in *.
  assert (HJ2 : nd_shape J2 (n_rows X) (length (nd_rows m))).
  { subst J2; apply nd_colop_shape; [assumption|].
    now rewrite length_map. }
  set (P1 := nd_scalar np_exp J2) in *.
  assert (HP1 : nd_shape P1 (n_rows X) (length (nd_rows m)))
    by (now apply nd_scalar_shape).
  assert (HP2 : nd_shape (nd_colop Qdiv P1 (nd_sum_axis1 P1)) (n_rows X)
                         (length (nd_rows m))).
  { apply nd_colop_shape; [assumption|].
    unfold nd_sum_axis1; rewrite length_map; apply HP1. }
  destruct HP2 as (Hr2 & _ & Hf2).
  split; [now rewrite !length_map|].
  apply Forall_forall; intros p Hp.
  apply in_map_iff in Hp; destruct Hp as (i & <- & Hi).
  apply in_map_iff in Hi; destruct Hi as (row & <- & Hrow).
  rewrite Forall_forall in Hf2; specialize (Hf2 _ Hrow).
  destruct row as [|x t]; simpl in *; [lia|].
  pose proof (@argmax_from_lt 0 x 1 t); lia.
Qed.

(** Whenever [predict] returns, a model was set, there is one label per row
    of [X], and every label lies between 1 and the model's row count. *)
Theorem predict_result_shape (self : AgeDetector) (X : csr_matrix)
  (preds : list Z) :
  predict np_exp np_log self X = Ok preds ->
  exists m, model self = Some m /\
    length preds = n_rows X /\
    Forall (fun p => (1 <= p <= Z.of_nat (length (nd_rows m)))%Z) preds.
Proof.
  intros H.
  exact (@predict_ok_shape self X preds H).
Qed.

End InferenceEdges.

(** * [fit] on labels counted from zero *)

Lemma np_unique_labels_from_zero y k :
  labels_from_zero y k ->
  np_unique y = (map Z.of_nat (seq 0 k),
                 map (n_count y) (map Z.of_nat (seq 0 k))).
Proof.
  intros H; unfold np_unique.
  destruct (count_table_spec y) as (Hs & Hin & Hc).
  assert (E : map fst (count_table y) = map Z.of_nat (seq 0 k)).
  { apply sorted_same_members; auto using seq_sorted.
    intros x; rewrite Hin, (H x), in_map_iff; split.
    - intros Hx; exists (Z.to_nat x); split; [lia|apply in_seq; lia].
    - intros (i & <- & Hi); apply in_seq in Hi; lia. }
  f_equal; [exact E|].
  rewrite <- E, map_map.
  apply map_ext_in; intros p Hp.
  rewrite Forall_forall in Hc; auto.
Qed.

Lemma np_index_negative k i :
  (- Z.of_nat k <= i < 0)%Z -> np_index k i = Ok (Z.to_nat (i + Z.of_nat k)).
Proof.
  intros H; unfold np_index.
  destruct (Z.leb_spec 0 i); [lia|]; cbn [andb].
  destruct (Z.leb_spec (- Z.of_nat k) i); [|lia].
  destruct (Z.ltb_spec i 0); [reflexivity|lia].
Qed.

Lemma bucket_loop_rows (row_of : Z -> nat) X y bins P :
  length y = n_rows X ->
  NoDup bins ->
  (forall c, In c bins ->
     np_index (length (nd_rows P)) (c - 1) = Ok (row_of c) /\
     (row_of c < length (nd_rows P))%nat) ->
  (forall c c', In c bins -> In c' bins -> row_of c = row_of c' -> c = c') ->
  exists P',
    bucket_loop X y bins P = Ok P' /\
    (forall c, In c bins -> nth (row_of c) (nd_rows P') [] = class_sums X y c) /\
    (forall i, (forall c, In c bins -> row_of c <> i) ->
       nth i (nd_rows P') [] = nth i (nd_rows P) []).
Proof.
  intros Hy; revert P; induction bins as [|cat bins IH]; intros P Hnd Hb Hinj;
    simpl.
  - exists P; repeat split; auto; intros c [].
  - rewrite csr_getitem_mask_labelled by assumption; simpl.
    destruct (Hb cat (or_introl eq_refl)) as (-> & Hlt); simpl.
    inversion Hnd as [|? ? Hnotin Hnd']; subst.
    destruct (IH (nd_set_row P (row_of cat)
                    (csr_sum_axis0 (mk_csr (n_cols X) (rows_labelled X y cat))))
                 Hnd') as (P' & HP' & Hhit & Hmiss).
    { simpl; rewrite length_list_set; intros c Hc; apply Hb; now right. }
    { intros c c' Hc Hc'; apply Hinj; now right. }
    exists P'; split; [exact HP'|]; split.
    + intros c [<-|Hc]; [|now apply Hhit].
      rewrite Hmiss; simpl.
      * now rewrite nth_list_set_eq.
      * intros c Hc E; apply Hnotin.
        rewrite <- (Hinj c cat (or_intror Hc) (or_introl eq_refl) E).
        exact Hc.
    + intros i Hi; rewrite Hmiss by (intros c Hc; apply Hi; now right).
      simpl; apply nth_list_set_neq; apply Hi; now left.
Qed.

Lemma class_in_row_range k i :
  (i < k)%nat -> (0 <= class_in_row k i < Z.of_nat k)%Z.
Proof.
  intros H; unfold class_in_row.
  pose proof (Nat.mod_upper_bound (S i) k); lia.
Qed.

(** When the labels are [0, ..., k - 1], as the script's own help text
    numbers the classes, [fit] returns: class 0 is written to the last row by
    numpy's negative indexing and class [c >= 1] to row [c - 1], while the
    bucket counts stay in label order.  The cell at row [i] therefore
    combines the positive counts of class [(i + 1) mod k] with the bucket
    count of class [i]. *)
Theorem fit_labels_from_zero (self : AgeDetector) (X : csr_matrix)
  (y : list Z) (k : nat) :
  length y = n_rows X -> labels_from_zero y k ->
  exists M, fit self X y = Ok (set_model self M) /\
    nd_shape M k (n_cols X) /\
    forall i j, (i < k)%nat -> (j < n_cols X)%nat ->
      nd_get M i j
      = smoothed_cell (m_count X y (class_in_row k i) j)
          (n_count y (Z.of_nat i))
          (Qsum (map (fun i' => m_count X y (class_in_row k i') j) (seq 0 k)))
          (n_rows X).
Proof.
  intros Hy Hl; unfold fit; rewrite fit_model_unfold.
  rewrite (np_unique_labels_from_zero Hl); cbn [fst snd].
  rewrite length_map, length_seq.
  set (row_of := fun c : Z =>
         if (c =? 0)%Z then (k - 1)%nat else Z.to_nat (c - 1)).
  destruct (@bucket_loop_rows row_of X y (map Z.of_nat (seq 0 k))
              (np_zeros k (n_cols X)) Hy) as (P & HP & Hhit & _).
  { apply sorted_NoDup, seq_sorted. }
  { intros c Hc; simpl; rewrite repeat_length.
    apply in_map_iff in Hc; destruct Hc as (i & <- & Hi); apply in_seq in Hi.
    subst row_of; cbv beta.
    destruct (Z.eqb_spec (Z.of_nat i) 0) as [E|E].
    - rewrite np_index_negative by lia.
      split; [f_equal|]; lia.
    - rewrite np_index_pos by lia.
      split; [reflexivity|lia]. }
  { intros c c' Hc Hc'.
    apply in_map_iff in Hc; destruct Hc as (i & <- & Hi); apply in_seq in Hi.
    apply in_map_iff in Hc'; destruct Hc' as (i' & <- & Hi');
      apply in_seq in Hi'.
    subst row_of; cbv beta.
    destruct (Z.eqb_spec (Z.of_nat i) 0); destruct (Z.eqb_spec (Z.of_nat i') 0);
      lia. }
  rewrite HP; cbn [bind].
  destruct (bucket_loop_shape _ _ _ _ HP) as (H1 & H2 & H3).
  assert (HPs : nd_shape P k (n_cols X)).
  { destruct (np_zeros_shape k (n_cols X)) as (Z1 & Z2 & Z3).
    unfold nd_shape; rewrite H1, H2; auto. }
  assert (Hrow : forall i, (i < k)%nat ->
            nth i (nd_rows P) [] = class_sums X y (class_in_row k i)).
  { intros i Hi.
    rewrite <- (Hhit (class_in_row k i)).
    - f_equal; subst row_of; cbv beta; unfold class_in_row.
      destruct (Nat.eq_dec (S i) k) as [E|E].
      + rewrite E, Nat.Div0.mod_same; simpl; lia.
      + rewrite Nat.mod_small by lia.
        destruct (Z.eqb_spec (Z.of_nat (S i)) 0); lia.
    - pose proof (class_in_row_range Hi) as Hr.
      apply in_map_iff; exists (Z.to_nat (class_in_row k i)).
      split; [lia|apply in_seq; lia]. }
  assert (Hrows : nd_rows P
                  = map (fun i => class_sums X y (class_in_row k i)) (seq 0 k)).
  { apply (nth_ext _ _ (@nil Q) (@nil Q)).
    - rewrite length_map, length_seq; apply HPs.
    - intros i Hi; destruct HPs as (Hk & _); rewrite Hk in Hi.
      rewrite (nth_map_lt _ _ O) by (now rewrite length_seq).
      rewrite seq_nth by assumption; now apply Hrow. }
  destruct (@smoothed_model_cells P
              (mk_df (map Z.of_nat (seq 0 k))
                     (map (n_count y) (map Z.of_nat (seq 0 k))))
              (n_rows X) k (n_cols X) HPs)
    as (M & HM & HMs & Hcells).
  { simpl; now rewrite !length_map, length_seq. }
  rewrite HM; cbn [bind].
  exists M; split; [reflexivity|]; split; [exact HMs|].
  intros i j Hi Hj.
  rewrite Hcells by assumption; simpl.
  f_equal.
  - unfold nd_get; rewrite Hrow by assumption.
    now apply nth_class_sums.
  - rewrite map_map, (nth_map_lt _ _ O) by (now rewrite length_seq).
    now rewrite seq_nth.
  - rewrite Hrows, map_map; f_equal.
    apply map_ext; intros i'; now apply nth_class_sums.
Qed.

(** * The smoothing against the add-one estimate *)

Lemma smoothed_cell_above_add_one (m : Q) (n : nat) (F : Q) (N : nat) :
  (1 <= n)%nat -> (1 <= N)%nat -> (0 <= m <= Qnat n)%Q -> (m <= F)%Q ->
  (m / (Qnat n + 1) <= smoothed_cell m n F N)%Q /\
  ((m / (Qnat n + 1) < smoothed_cell m n F N)%Q <-> (0 < F)%Q).
Proof.
  intros Hn HN Hm HF; unfold smoothed_cell.
  assert (HF0 : (0 <= F)%Q) by lra.
  destruct (prior_weight_sign Hn HN HF0) as (Ha & Hapos & Hazero).
  pose proof (Qnat_le Hn) as Hn'; change (Qnat 1) with 1%Q in Hn'.
  set (a := (Qnat n / 10 * F / Qnat N)%Q) in *.
  assert (Hd : (0 < Qnat n + a + 1)%Q) by lra.
  assert (Hd0 : (0 < Qnat n + 1)%Q) by lra.
  assert (Hprod : (0 <= a * (Qnat n + 1 - m))%Q)
    by (apply Qmult_le_0_compat; lra).
  repeat split.
  - apply Qle_shift_div_l; [assumption|].
    setoid_replace (m / (Qnat n + 1) * (Qnat n + a + 1))%Q
      with (m * (Qnat n + a + 1) / (Qnat n + 1))%Q by (field; lra).
    apply Qle_shift_div_r; [assumption|].
    ring_simplify; ring_simplify in Hprod; lra.
  - intros Hlt.
    destruct (Qlt_le_dec 0 F) as [|HF']; [assumption|exfalso].
    assert (E : (F == 0)%Q) by lra.
    specialize (Hazero E).
    assert (Eq : ((m + a) / (Qnat n + a + 1) == m / (Qnat n + 1))%Q).
    { rewrite Hazero; field; lra. }
    rewrite Eq in Hlt; lra.
  - intros HF'; specialize (Hapos HF').
    assert (Hprod' : (0 < a * (Qnat n + 1 - m))%Q).
    { setoid_replace 0%Q with (0 * (Qnat n + 1 - m))%Q by ring.
      apply Qmult_lt_compat_r; lra. }
    apply Qdiv_lt_cross; [assumption|assumption|].
    ring_simplify; ring_simplify in Hprod'; lra.
Qed.

(** On a valid input (binary [X], row-aligned labels exactly [1, ..., k]) the
    fitted cell is never below the add-one estimate [m_cj / (n_c + 1)], and
    it is strictly above it exactly when some training row has feature [j]:
    the prior term enters numerator and denominator alike, so it moves the
    estimate towards one. *)
Theorem fit_cell_above_add_one (self : AgeDetector) (X : csr_matrix)
  (y : list Z) (k : nat) :
  length y = n_rows X -> labels_are y k -> csr_binary X ->
  exists M, fit self X y = Ok (set_model self M) /\
    forall c j, (1 <= c <= Z.of_nat k)%Z -> (j < n_cols X)%nat ->
      (m_count X y c j / (Qnat (n_count y c) + 1)
       <= nd_get M (Z.to_nat (c - 1)) j)%Q /\
      ((m_count X y c j / (Qnat (n_count y c) + 1)
        < nd_get M (Z.to_nat (c - 1)) j)%Q <-> (0 < F_count X y k j)%Q).
Proof.
  intros Hy Hl Hb.
  destruct (fit_model_labels X Hy Hl) as (M & HM & _ & Hcells).
  exists M; split; [unfold fit; now rewrite HM|].
  intros c j Hc Hj; rewrite Hcells by assumption.
  assert (Hin : In c y) by (now apply Hl).
  assert (Hn : (1 <= n_count y c)%nat).
  { unfold n_count; apply (count_occ_In Z.eq_dec) in Hin; lia. }
  assert (HN : (1 <= n_rows X)%nat).
  { rewrite <- Hy; destruct y; [contradiction|simpl; lia]. }
  apply smoothed_cell_above_add_one; auto.
  - now apply m_count_bounds.
  - now apply m_count_le_F_count.
Qed.

(** * Cross-validation *)

Lemma np_put_length a idx vals : length (np_put a idx vals) = length a.
Proof.
  revert a vals; induction idx as [|i idx IH]; intros a [|v vals]; simpl; auto.
  now rewrite IH, length_list_set.
Qed.

Lemma np_put_untouched a idx vals i d :
  ~ In i idx -> nth i (np_put a idx vals) d = nth i a d.
Proof.
  revert a vals; induction idx as [|i0 idx IH]; intros a [|v vals] Hi; simpl;
    auto.
  rewrite IH by (intros H; apply Hi; now right).
  apply nth_list_set_neq; intros ->; apply Hi; now left.
Qed.

Lemma np_put_written a idx vals i d :
  length vals = length idx -> In i idx -> (i < length a)%nat ->
  In (nth i (np_put a idx vals) d) vals.
Proof.
  revert a vals; induction idx as [|i0 idx IH]; intros a [|v vals]; simpl;
    try discriminate; try tauto.
  intros Hl Hin Hi; injection Hl as Hl.
  destruct (in_dec Nat.eq_dec i idx) as [Hi'|Hi'].
  - right; apply IH; auto; now rewrite length_list_set.
  - destruct Hin as [->|Hin]; [|contradiction].
    left; rewrite np_put_untouched by assumption.
    symmetry; now apply nth_list_set_eq.
Qed.

Lemma np_put_nth a idx vals j d :
  NoDup idx -> length vals = length idx ->
  (forall i, In i idx -> (i < length a)%nat) -> (j < length idx)%nat ->
  nth (nth j idx O) (np_put a idx vals) d = nth j vals d.
Proof.
  revert a vals j; induction idx as [|i0 idx IH]; intros a [|v vals] j;
    simpl; try discriminate; try lia.
  intros Hnd Hl Hb Hj; injection Hl as Hl.
  inversion Hnd as [|? ? Hnotin Hnd']; subst.
  destruct j as [|j].
  - rewrite np_put_untouched by assumption.
    apply nth_list_set_eq, Hb; now left.
  - apply IH; auto; [|lia].
    intros i Hi; rewrite length_list_set; apply Hb; now right.
Qed.

Lemma np_setitem_ok a idx vals a' :
  np_setitem a idx vals = Ok a' ->
  (forall i, In i idx -> (i < length a)%nat) /\
  length a' = length a /\
  (forall i d, ~ In i idx -> nth i a' d = nth i a d) /\
  (forall i d, In i idx -> In (nth i a' d) vals) /\
  (length vals = length idx -> a' = np_put a idx vals).
Proof.
  unfold np_setitem.
  destruct (forallb (fun i => (i <? length a)%nat) idx) eqn:Hb; simpl;
    [|discriminate].
  assert (Hbound : forall i, In i idx -> (i < length a)%nat).
  { intros i Hi; rewrite forallb_forall in Hb.
    now apply Nat.ltb_lt, Hb. }
  destruct (Nat.eqb_spec (length vals) (length idx)) as [E|E].
  - intros H; injection H as <-; repeat split; auto.
    + apply np_put_length.
    + intros i d Hi; now apply np_put_untouched.
    + intros i d Hi; apply np_put_written; auto.
  - destruct (Nat.eqb_spec (length vals) 1) as [E1|E1]; [|discriminate].
    intros H; injection H as <-; repeat split; auto.
    + apply np_put_length.
    + intros i d Hi; now apply np_put_untouched.
    + intros i d Hi.
      assert (Hin : In (nth i (np_put a idx
                                 (repeat (hd 0%Z vals) (length idx))) d)
                       (repeat (hd 0%Z vals) (length idx))).
      { apply np_put_written; auto; apply repeat_length. }
      apply repeat_spec in Hin; rewrite Hin.
      destruct vals as [|v vals]; simpl in *; [discriminate|now left].
    + intros E'; contradiction.
Qed.

Lemma length_take_rows rows idx rs :
  take_rows rows idx = Ok rs -> length rs = length idx.
Proof.
  revert rs; induction idx as [|i idx IH]; intros rs; simpl.
  - intros H; injection H as <-; reflexivity.
  - destruct (nth_error rows i); [|discriminate].
    destruct (take_rows rows idx) as [rs'|]; simpl; [|discriminate].
    intros H; injection H as <-; simpl; f_equal; now apply IH.
Qed.

Lemma csr_getitem_rows_ok X idx Xs :
  csr_getitem_rows X idx = Ok Xs ->
  n_rows Xs = length idx /\ n_cols Xs = n_cols X.
Proof.
  unfold csr_getitem_rows.
  destruct (take_rows (csr_rows X) idx) as [rs|] eqn:E; simpl; [|discriminate].
  intros H; injection H as <-; unfold n_rows; simpl.
  split; [eapply length_take_rows; eauto|reflexivity].
Qed.

Section CrossValidationFacts.

Variable np_exp : Q -> Q.
Variable np_log : Q -> Q.
Variable get_metrics : list Z -> list Z -> result (Q * Q).

Lemma predict_returns_prior_fits (self : AgeDetector) (X : csr_matrix)
  (preds : list Z) :
  predict np_exp np_log self X = Ok preds ->
  exists m, model self = Some m /\
    (length (PRIOR self) = length (nd_rows m) \/ length (PRIOR self) = 1%nat).
Proof.
  unfold predict; destruct (model self) as [m|]; [|discriminate].
  intros H; exists m; split; [reflexivity|].
  destruct (accumulate m (tocoo X) _) as [J|] eqn:HJ; cbn [bind] in H;
    [|discriminate].
  apply accumulate_cols in HJ; simpl in HJ.
  unfold nd_iadd_vec in H; rewrite length_map, HJ in H.
  destruct (Nat.eqb_spec (length (PRIOR self)) (length (nd_rows m)));
    [now left|].
  destruct (Nat.eqb_spec (length (PRIOR self)) 1); [now right|discriminate].
Qed.

Lemma cv_folds_step X y tr te rest clf yp out :
  cv_folds np_exp np_log get_metrics X y ((tr, te) :: rest) clf yp = Ok out ->
  exists X_train X_test y_train M preds yp1,
    csr_getitem_rows X tr = Ok X_train /\
    csr_getitem_rows X te = Ok X_test /\
    np_take y tr = Ok y_train /\
    fit_model X_train y_train = Ok M /\
    predict np_exp np_log (set_model clf M) X_test = Ok preds /\
    length preds = length te /\
    np_setitem yp te preds = Ok yp1 /\
    cv_folds np_exp np_log get_metrics X y rest (set_model clf M) yp1 = Ok out.
Proof.
  simpl.
  destruct (csr_getitem_rows X tr) as [X_train|] eqn:E1; cbn [bind];
    [|discriminate].
  destruct (csr_getitem_rows X te) as [X_test|] eqn:E2; cbn [bind];
    [|discriminate].
  destruct (np_take y tr) as [y_train|] eqn:E3; cbn [bind]; [|discriminate].
  unfold fit.
  destruct (fit_model X_train y_train) as [M|] eqn:E4; cbn [bind];
    [|discriminate].
  destruct (predict np_exp np_log (set_model clf M) X_test) as [preds|] eqn:E5;
    cbn [bind]; [|discriminate].
  destruct (np_take y te) as [y_test|]; cbn [bind]; [|discriminate].
  destruct (get_metrics preds y_test); cbn [bind]; [|discriminate].
  destruct (np_setitem yp te preds) as [yp1|] eqn:E6; cbn [bind];
    [|discriminate].
  intros H; exists X_train, X_test, y_train, M, preds, yp1.
  repeat split; auto.
  destruct (predict_ok_shape _ _ _ _ E5) as (m & _ & Hl & _).
  rewrite Hl; eapply csr_getitem_rows_ok; eauto.
Qed.

Lemma cv_folds_untouched X y splits clf yp clf' yp' :
  cv_folds np_exp np_log get_metrics X y splits clf yp = Ok (clf', yp') ->
  length yp' = length yp /\
  n_classes clf' = n_classes clf /\ PRIOR clf' = PRIOR clf /\
  forall i, (forall tr te, In (tr, te) splits -> ~ In i te) ->
    nth i yp' 0%Z = nth i yp 0%Z.
Proof.
  revert clf yp; induction splits as [|[tr te] rest IH]; intros clf yp H.
  - simpl in H; injection H as <- <-; auto.
  - apply cv_folds_step in H.
    destruct H as (Xa & Xb & ya & M & preds & yp1 & _ & _ & _ & _ & _ & _
                   & Hset & Hrest).
    apply IH in Hrest; destruct Hrest as (Hl & Hn & Hp & Hu).
    apply np_setitem_ok in Hset; destruct Hset as (_ & Hl1 & Hu1 & _).
    repeat split; auto; [congruence|].
    intros i Hi.
    rewrite Hu by (intros tr' te' Hin; apply (Hi tr' te'); now right).
    apply Hu1; apply (Hi tr te); now left.
Qed.

(** [run_cv_pred] returns a vector as long as [y], leaves the estimator's
    class count and prior as they were, and every position that belongs to
    no test fold still holds its label from [y]: [y_pred] starts as a copy of
    [y] and only test positions are written. *)
Theorem run_cv_pred_untouched_positions (X : csr_matrix) (y : list Z)
  (clf : AgeDetector) (splits : list (list nat * list nat))
  (clf' : AgeDetector) (y_pred : list Z) :
  run_cv_pred np_exp np_log get_metrics X y clf splits = Ok (clf', y_pred) ->
  length y_pred = length y /\
  n_classes clf' = n_classes clf /\ PRIOR clf' = PRIOR clf /\
  forall i, (forall tr te, In (tr, te) splits -> ~ In i te) ->
    nth i y_pred 0%Z = nth i y 0%Z.
Proof.
  unfold run_cv_pred; intros H.
  exact (@cv_folds_untouched X y splits clf y clf' y_pred H).
Qed.

Lemma cv_folds_range n X y splits clf yp clf' yp' :
  length (PRIOR clf) = n -> n <> 1%nat ->
  cv_folds np_exp np_log get_metrics X y splits clf yp = Ok (clf', yp') ->
  forall i,
    (1 <= nth i yp 0 <= Z.of_nat n)%Z \/
    (exists tr te, In (tr, te) splits /\ In i te) ->
    (1 <= nth i yp' 0 <= Z.of_nat n)%Z.
Proof.
  intros Hn Hn1; revert clf yp Hn; induction splits as [|[tr te] rest IH];
    intros clf yp Hn H i Hi.
  - simpl in H; injection H as <- <-.
    destruct Hi as [Hi|(tr & te & [] & _)]; exact Hi.
  - apply cv_folds_step in H.
    destruct H as (Xa & Xb & ya & M & preds & yp1 & _ & _ & _ & _ & Hpred
                   & _ & Hset & Hrest).
    apply (IH (set_model clf M) yp1 Hn Hrest i).
    apply np_setitem_ok in Hset; destruct Hset as (_ & _ & Hu1 & Hw1 & _).
    destruct (in_dec Nat.eq_dec i te) as [Hte|Hte].
    + left.
      destruct (predict_ok_shape _ _ _ _ Hpred) as (m & Hm & _ & Hr).
      destruct (predict_returns_prior_fits _ _ Hpred) as (m' & Hm' & Hfit).
      rewrite Hm in Hm'; injection Hm' as <-; simpl in Hfit.
      rewrite Forall_forall in Hr.
      specialize (Hr _ (Hw1 i 0%Z Hte)).
      destruct Hfit as [Hfit|Hfit]; [|congruence].
      rewrite Hn in Hfit; rewrite Hfit; exact Hr.
    + destruct Hi as [Hi|(tr' & te' & [E|Hin] & Hi)].
      * left; now rewrite Hu1.
      * injection E as <- <-; contradiction.
      * right; eauto.
Qed.

(** For an estimator whose prior has [n] cells, [n] not 1, every position of
    the returned vector that belongs to some test fold holds a label between
    1 and [n]. *)
Theorem run_cv_pred_labels_in_range (X : csr_matrix) (y : list Z)
  (clf : AgeDetector) (splits : list (list nat * list nat))
  (clf' : AgeDetector) (y_pred : list Z) (n i : nat) (tr te : list nat) :
  length (PRIOR clf) = n -> n <> 1%nat ->
  run_cv_pred np_exp np_log get_metrics X y clf splits = Ok (clf', y_pred) ->
  In (tr, te) splits -> In i te ->
  (1 <= nth i y_pred 0 <= Z.of_nat n)%Z.
Proof.
  intros Hn Hn1 H Hin Hi.
  apply (@cv_folds_range n X y splits clf y clf' y_pred Hn Hn1 H i).
  right; eauto.
Qed.

Lemma cv_folds_fold_prediction X y splits clf yp clf' yp' tr te :
  cv_folds np_exp np_log get_metrics X y splits clf yp = Ok (clf', yp') ->
  disjoint_test_folds splits -> In (tr, te) splits -> NoDup te ->
  exists X_train X_test y_train M preds,
    csr_getitem_rows X tr = Ok X_train /\
    csr_getitem_rows X te = Ok X_test /\
    np_take y tr = Ok y_train /\
    fit_model X_train y_train = Ok M /\
    predict np_exp np_log (set_model clf M) X_test = Ok preds /\
    length preds = length te /\
    forall j, (j < length te)%nat ->
      nth (nth j te O) yp' 0%Z = nth j preds 0%Z.
Proof.
  revert clf yp; induction splits as [|[tr0 te0] rest IH];
    intros clf yp H Hdis Hin Hnd; [contradiction|].
  apply cv_folds_step in H.
  destruct H as (Xa & Xb & ya & M & preds & yp1 & H1 & H2 & H3 & H4 & H5
                 & H6 & Hset & Hrest).
  inversion Hdis as [|? ? Hhead Htail]; subst.
  destruct Hin as [E|Hin].
  - injection E as -> ->.
    exists Xa, Xb, ya, M, preds; repeat split; auto.
    intros j Hj.
    apply cv_folds_untouched in Hrest; destruct Hrest as (_ & _ & _ & Hu).
    apply np_setitem_ok in Hset; destruct Hset as (Hb & _ & _ & _ & Hput).
    rewrite Hu, (Hput H6); [now apply np_put_nth|].
    intros tr' te' Hin'; rewrite Forall_forall in Hhead.
    apply (Hhead (tr', te') Hin' (nth j te O)), nth_In, Hj.
  - destruct (IH (set_model clf M) yp1 Hrest Htail Hin Hnd)
      as (Xa' & Xb' & ya' & M' & preds' & G1 & G2 & G3 & G4 & G5 & G6 & G7).
    exists Xa', Xb', ya', M', preds'; repeat split; auto.
Qed.

(** When no index lies in the test part of two folds, every test position of
    a fold without repeated indices holds, in the returned vector, the label
    that the estimator fitted on that fold's training rows alone predicts
    for it: a later fold neither overwrites the position nor sees the
    earlier model. *)
Theorem run_cv_pred_fold_prediction (X : csr_matrix) (y : list Z)
  (clf : AgeDetector) (splits : list (list nat * list nat))
  (clf' : AgeDetector) (y_pred : list Z) (tr te : list nat) :
  run_cv_pred np_exp np_log get_metrics X y clf splits = Ok (clf', y_pred) ->
  disjoint_test_folds splits -> In (tr, te) splits -> NoDup te ->
  exists X_train X_test y_train M preds,
    csr_getitem_rows X tr = Ok X_train /\
    csr_getitem_rows X te = Ok X_test /\
    np_take y tr = Ok y_train /\
    fit_model X_train y_train = Ok M /\
    predict np_exp np_log (set_model clf M) X_test = Ok preds /\
    length preds = length te /\
    forall j, (j < length te)%nat ->
      nth (nth j te O) y_pred 0%Z = nth j preds 0%Z.
Proof.
  unfold run_cv_pred; intros H Hdis Hin Hnd.
  exact (@cv_folds_fold_prediction X y splits clf y clf' y_pred tr te
           H Hdis Hin Hnd).
Qed.

Lemma take_rows_In rows idx rs r :
  take_rows rows idx = Ok rs -> In r rs -> In r rows.
Proof.
  revert rs; induction idx as [|i idx IH]; intros rs; simpl.
  - intros H; injection H as <-; intros [].
  - destruct (nth_error rows i) as [r0|] eqn:E; [|discriminate].
    destruct (take_rows rows idx) as [rs'|]; simpl; [|discriminate].
    intros H; injection H as <-; intros [<-|Hin]; [|eapply IH; eauto].
    eapply nth_error_In; eauto.
Qed.

Lemma csr_getitem_rows_wf X idx Xs :
  csr_wf X -> csr_getitem_rows X idx = Ok Xs -> csr_wf Xs.
Proof.
  unfold csr_getitem_rows, csr_wf.
  destruct (take_rows (csr_rows X) idx) as [rs|] eqn:E; simpl; [|discriminate].
  intros Hwf H; injection H as <-; simpl.
  rewrite Forall_forall in *; intros r Hr.
  apply Hwf; eapply take_rows_In; eauto.
Qed.

Lemma length_np_take y idx ys :
  np_take y idx = Ok ys -> length ys = length idx.
Proof.
  revert ys; induction idx as [|i idx IH]; intros ys; simpl.
  - intros H; injection H as <-; reflexivity.
  - destruct (nth_error y i); [|discriminate].
    destruct (np_take y idx) as [ys'|]; simpl; [|discriminate].
    intros H; injection H as <-; simpl; f_equal; now apply IH.
Qed.

(** When the training labels of the first fold show [k] distinct values and
    the estimator's prior has another number of cells (more than one),
    [run_cv_pred] raises.  It raises [IndexError], from [fit], when some
    training label lies outside [1 - k, k]; it raises [ValueError], from
    [predict], when every training label lies in [1 - k, k], where [fit]
    returns (through negative indexing for a label below 1). *)
Theorem run_cv_pred_missing_class_raises (X : csr_matrix) (y : list Z)
  (clf : AgeDetector) (tr te : list nat)
  (rest : list (list nat * list nat)) (X_train X_test : csr_matrix)
  (y_train : list Z) :
  csr_wf X ->
  csr_getitem_rows X tr = Ok X_train ->
  csr_getitem_rows X te = Ok X_test ->
  np_take y tr = Ok y_train ->
  n_distinct y_train <> length (PRIOR clf) ->
  length (PRIOR clf) <> 1%nat ->
  ((exists c, In c y_train /\
      ~ (1 - Z.of_nat (n_distinct y_train) <= c
         <= Z.of_nat (n_distinct y_train))%Z) ->
   run_cv_pred np_exp np_log get_metrics X y clf ((tr, te) :: rest)
   = Raise IndexError) /\
  ((forall c, In c y_train ->
      (1 - Z.of_nat (n_distinct y_train) <= c
       <= Z.of_nat (n_distinct y_train))%Z) ->
   run_cv_pred np_exp np_log get_metrics X y clf ((tr, te) :: rest)
   = Raise ValueError).
Proof.
  intros Hwf H1 H2 H3 Hk Hn1; unfold run_cv_pred; simpl.
  rewrite H1, H2, H3; cbn [bind]; unfold fit.
  split.
  - intros Hbad.
    rewrite (@fit_model_out_of_range X_train y_train Hbad); reflexivity.
  - intros Hin.
    assert (Hy : length y_train = n_rows X_train).
    { rewrite (length_np_take _ _ H3).
      symmetry; eapply csr_getitem_rows_ok; eauto. }
    destruct (@fit_model_in_range X_train y_train Hy Hin) as (M & HM).
    rewrite HM; cbn [bind].
    pose proof (fit_model_shape _ _ HM) as (Hrows & Hcols & _).
    rewrite (@predict_mismatch np_exp np_log (set_model clf M) X_test M);
      simpl; auto.
    + congruence.
    + eapply csr_getitem_rows_wf; eauto.
    + destruct (csr_getitem_rows_ok _ _ H1) as (_ & E1).
      destruct (csr_getitem_rows_ok _ _ H2) as (_ & E2).
      rewrite Hcols, E1, E2; lia.
Qed.

End CrossValidationFacts.

(** * The order of the training rows *)

Lemma Qsum_Permutation (l l' : list Q) :
  Permutation l l' -> (Qsum l == Qsum l')%Q.
Proof.
  induction 1 as [|x l l' _ IH|x x' l|l l' l'' _ IH1 _ IH2]; simpl.
  - reflexivity.
  - now rewrite IH.
  - ring.
  - now rewrite IH1.
Qed.

Lemma Qsum_pointwise (A : Type) (g g' : A -> Q) (l : list A) :
  (forall a, In a l -> (g a == g' a)%Q) ->
  (Qsum (map g l) == Qsum (map g' l))%Q.
Proof.
  induction l as [|a l IH]; intros H; simpl; [reflexivity|].
  rewrite (H a (or_introl eq_refl)), IH; [reflexivity|].
  intros a' Ha'; apply H; now right.
Qed.

Lemma filter_Permutation (A : Type) (p : A -> bool) (l l' : list A) :
  Permutation l l' -> Permutation (filter p l) (filter p l').
Proof.
  induction 1 as [|x l l' _ IH|x x' l|l l' l'' _ IH1 _ IH2]; simpl.
  - constructor.
  - destruct (p x); [now constructor|assumption].
  - destruct (p x); destruct (p x'); try reflexivity; constructor.
  - now transitivity (filter p l').
Qed.

Lemma map_snd_combine_aligned (A B : Type) (l : list A) (l' : list B) :
  length l' = length l -> map snd (combine l l') = l'.
Proof.
  revert l'; induction l as [|a l IH]; intros [|b l']; simpl; try discriminate;
    auto.
  intros H; injection H as H; now rewrite IH.
Qed.

Lemma length_combine_aligned (A B : Type) (l : list A) (l' : list B) :
  length l' = length l -> length (combine l l') = length l.
Proof. intros H; rewrite length_combine, H; apply Nat.min_id. Qed.

Lemma smoothed_cell_compat (m m' : Q) (n : nat) (F F' : Q) (N : nat) :
  (m == m')%Q -> (F == F')%Q ->
  (smoothed_cell m n F N == smoothed_cell m' n F' N)%Q.
Proof. intros Hm HF; unfold smoothed_cell; now rewrite Hm, HF. Qed.

(** The fitted model does not depend on the order of the training rows: when
    the (row, label) pairs of two row-aligned inputs with labels [1, ..., k]
    are permutations of each other, both fits return, and their models agree
    cell by cell as rationals. *)
Theorem fit_row_order_irrelevant (self : AgeDetector) (X X' : csr_matrix)
  (y y' : list Z) (k : nat) :
  length y = n_rows X -> length y' = n_rows X' -> n_cols X' = n_cols X ->
  labels_are y k ->
  Permutation (combine (csr_rows X) y) (combine (csr_rows X') y') ->
  exists M M',
    fit self X y = Ok (set_model self M) /\
    fit self X' y' = Ok (set_model self M') /\
    forall c j, (1 <= c <= Z.of_nat k)%Z -> (j < n_cols X)%nat ->
      (nd_get M (Z.to_nat (c - 1)) j == nd_get M' (Z.to_nat (c - 1)) j)%Q.
Proof.
  intros Hy Hy' Hcols Hl Hperm.
  assert (Hyy : Permutation y y').
  { rewrite <- (map_snd_combine_aligned (csr_rows X) y) by assumption.
    rewrite <- (map_snd_combine_aligned (csr_rows X') y') by assumption.
    now apply Permutation_map. }
  assert (Hl' : labels_are y' k).
  { intros c; rewrite <- (Hl c); split; apply Permutation_in;
      [now symmetry|assumption]. }
  assert (Hrows : n_rows X' = n_rows X).
  { unfold n_rows in *.
    rewrite <- (length_combine_aligned (csr_rows X) y) by assumption.
    rewrite <- (length_combine_aligned (csr_rows X') y') by assumption.
    symmetry; now apply Permutation_length. }
  assert (Hm : forall c j, (m_count X y c j == m_count X' y' c j)%Q).
  { intros c j; unfold m_count, rows_labelled.
    apply Qsum_Permutation; do 2 apply Permutation_map.
    now apply filter_Permutation. }
  assert (Hn : forall c, n_count y c = n_count y' c).
  { intros c; unfold n_count.
    now apply (proj1 (Permutation_count_occ Z.eq_dec y y')). }
  destruct (fit_model_labels X Hy Hl) as (M & HM & _ & Hcells).
  destruct (fit_model_labels X' Hy' Hl') as (M' & HM' & _ & Hcells').
  exists M, M'; unfold fit; rewrite HM, HM'.
  split; [reflexivity|]; split; [reflexivity|].
  intros c j Hc Hj.
  rewrite Hcells, Hcells' by (rewrite ?Hcols; assumption).
  rewrite Hrows, <- Hn.
  apply smoothed_cell_compat; [apply Hm|].
  unfold F_count; apply Qsum_pointwise; intros c' _; apply Hm.
Qed.

(** * Instances *)

Lemma predict_column_out_of_range_witness :
  predict exp_instance (fun x => x) self_scenario (mk_csr 3 [[(2%nat, 1%Q)]])
  = Raise IndexError.
Proof.
  apply (@predict_column_out_of_range exp_instance (fun x => x) self_scenario
           (mk_csr 3 [[(2%nat, 1%Q)]]) model_scenario [(2%nat, 1%Q)]
           (2%nat, 1%Q)).
  - reflexivity.
  - now left.
  - now left.
  - simpl; lia.
Defined.

Lemma predict_ignores_stored_values_witness :
  predict exp_instance (fun x => x) self_scenario
          (mk_csr 2 [[(0%nat, 1%Q)]; [(1%nat, 1%Q)]])
  = predict exp_instance (fun x => x) self_scenario
            (mk_csr 5 [[(0%nat, 3 # 4)]; [(1%nat, 0%Q)]]).
Proof.
  apply (@predict_ignores_stored_values exp_instance (fun x => x)
           self_scenario); reflexivity.
Defined.

Lemma predict_class_count_mismatch_witness :
  predict exp_instance (fun x => x)
          (mk_AgeDetector 3 [1 # 3; 1 # 3; 1 # 3]%Q (Some model_scenario))
          (mk_csr 2 [[(0%nat, 1%Q)]])
  = Raise ValueError.
Proof.
  apply (@predict_class_count_mismatch exp_instance (fun x => x)
           (mk_AgeDetector 3 [1 # 3; 1 # 3; 1 # 3]%Q (Some model_scenario))
           (mk_csr 2 [[(0%nat, 1%Q)]]) model_scenario).
  - reflexivity.
  - simpl; lia.
  - simpl; lia.
  - repeat constructor.
  - simpl; lia.
Defined.

Lemma predict_result_shape_witness :
  let X := mk_csr 2 [[(0%nat, 1%Q)]; [(1%nat, 1%Q)]] in
  exists m, model self_scenario = Some m /\
    length [1; 2]%Z = n_rows X /\
    Forall (fun p => (1 <= p <= Z.of_nat (length (nd_rows m)))%Z) [1; 2]%Z.
Proof.
  intros X.
  apply (@predict_result_shape exp_instance (fun x => x) self_scenario X
           [1; 2]%Z).
  vm_compute; reflexivity.
Defined.

Lemma fit_labels_from_zero_witness :
  let X := mk_csr 1 [[(0%nat, 1%Q)]; []] in
  let y := [0; 1]%Z in
  exists M, fit self0_scenario X y = Ok (set_model self0_scenario M) /\
    nd_shape M 2 (n_cols X) /\
    forall i j, (i < 2)%nat -> (j < n_cols X)%nat ->
      nd_get M i j
      = smoothed_cell (m_count X y (class_in_row 2 i) j)
          (n_count y (Z.of_nat i))
          (Qsum (map (fun i' => m_count X y (class_in_row 2 i') j) (seq 0 2)))
          (n_rows X).
Proof.
  intros X y.
  apply (@fit_labels_from_zero self0_scenario X y 2);
    [reflexivity | intros c; simpl; lia].
Defined.

Lemma fit_cell_above_add_one_witness :
  exists M,
    fit self0_scenario X_scenario y_scenario = Ok (set_model self0_scenario M) /\
    forall c j, (1 <= c <= Z.of_nat 2)%Z -> (j < n_cols X_scenario)%nat ->
      (m_count X_scenario y_scenario c j / (Qnat (n_count y_scenario c) + 1)
       <= nd_get M (Z.to_nat (c - 1)) j)%Q /\
      ((m_count X_scenario y_scenario c j / (Qnat (n_count y_scenario c) + 1)
        < nd_get M (Z.to_nat (c - 1)) j)%Q
       <-> (0 < F_count X_scenario y_scenario 2 j)%Q).
Proof.
  apply (@fit_cell_above_add_one self0_scenario X_scenario y_scenario 2);
    [reflexivity | intros c; simpl; lia |].
  repeat (apply Forall_cons; [intros [|[|j]]; vm_compute; auto|]).
  apply Forall_nil.
Defined.

Lemma fit_row_order_irrelevant_witness :
  let X' := mk_csr 2 [[(0%nat, 1%Q)]; [(1%nat, 1%Q)]; [(0%nat, 1%Q)];
                      [(1%nat, 1%Q)]] in
  let y' := [1; 2; 1; 2]%Z in
  exists M M',
    fit self0_scenario X_scenario y_scenario = Ok (set_model self0_scenario M) /\
    fit self0_scenario X' y' = Ok (set_model self0_scenario M') /\
    forall c j, (1 <= c <= Z.of_nat 2)%Z -> (j < n_cols X_scenario)%nat ->
      (nd_get M (Z.to_nat (c - 1)) j == nd_get M' (Z.to_nat (c - 1)) j)%Q.
Proof.
  intros X' y'.
  apply (@fit_row_order_irrelevant self0_scenario X_scenario X' y_scenario y' 2);
    try reflexivity.
  - intros c; simpl; lia.
  - simpl; apply perm_skip, perm_swap.
Defined.

Lemma scenario_cv_one_fold :
  exists out,
    run_cv_pred exp_instance (fun x => x) (fun _ _ => Ok (0%Q, 0%Q))
                X_scenario y_scenario self0_scenario
                [([1; 3]%nat, [0; 2]%nat)] = Ok out.
Proof. eexists; vm_compute; reflexivity. Qed.

Lemma scenario_cv_two_folds :
  exists out,
    run_cv_pred exp_instance (fun x => x) (fun _ _ => Ok (0%Q, 0%Q))
                X_scenario y_scenario self0_scenario
                [([1; 3]%nat, [0; 2]%nat); ([0; 2]%nat, [1; 3]%nat)] = Ok out.
Proof. eexists; vm_compute; reflexivity. Qed.

Lemma run_cv_pred_untouched_positions_witness :
  let metrics := fun (_ _ : list Z) => Ok (0%Q, 0%Q) in
  let splits := [([1; 3]%nat, [0; 2]%nat)] in
  exists clf' y_pred,
    run_cv_pred exp_instance (fun x => x) metrics X_scenario y_scenario
                self0_scenario splits = Ok (clf', y_pred) /\
    length y_pred = length y_scenario /\
    n_classes clf' = n_classes self0_scenario /\
    PRIOR clf' = PRIOR self0_scenario /\
    forall i, (forall tr te, In (tr, te) splits -> ~ In i te) ->
      nth i y_pred 0%Z = nth i y_scenario 0%Z.
Proof.
  intros metrics splits.
  destruct scenario_cv_one_fold as ([clf' y_pred] & Hrun).
  exists clf', y_pred; split; [exact Hrun|].
  exact (@run_cv_pred_untouched_positions exp_instance (fun x => x) metrics
           X_scenario y_scenario self0_scenario splits clf' y_pred Hrun).
Defined.

Lemma run_cv_pred_labels_in_range_witness :
  let metrics := fun (_ _ : list Z) => Ok (0%Q, 0%Q) in
  let splits := [([1; 3]%nat, [0; 2]%nat); ([0; 2]%nat, [1; 3]%nat)] in
  exists clf' y_pred,
    run_cv_pred exp_instance (fun x => x) metrics X_scenario y_scenario
                self0_scenario splits = Ok (clf', y_pred) /\
    (1 <= nth 3 y_pred 0 <= Z.of_nat 2)%Z.
Proof.
  intros metrics splits.
  destruct scenario_cv_two_folds as ([clf' y_pred] & Hrun).
  exists clf', y_pred; split; [exact Hrun|].
  apply (@run_cv_pred_labels_in_range exp_instance (fun x => x) metrics
           X_scenario y_scenario self0_scenario splits clf' y_pred 2 3
           [0; 2]%nat [1; 3]%nat).
  - reflexivity.
  - lia.
  - exact Hrun.
  - right; now left.
  - right; now left.
Defined.

Lemma run_cv_pred_fold_prediction_witness :
  let metrics := fun (_ _ : list Z) => Ok (0%Q, 0%Q) in
  let splits := [([1; 3]%nat, [0; 2]%nat); ([0; 2]%nat, [1; 3]%nat)] in
  exists clf' y_pred X_train X_test y_train M preds,
    run_cv_pred exp_instance (fun x => x) metrics X_scenario y_scenario
                self0_scenario splits = Ok (clf', y_pred) /\
    csr_getitem_rows X_scenario [0; 2]%nat = Ok X_train /\
    csr_getitem_rows X_scenario [1; 3]%nat = Ok X_test /\
    np_take y_scenario [0; 2]%nat = Ok y_train /\
    fit_model X_train y_train = Ok M /\
    predict exp_instance (fun x => x) (set_model self0_scenario M) X_test
    = Ok preds /\
    length preds = length [1; 3]%nat /\
    forall j, (j < length [1; 3]%nat)%nat ->
      nth (nth j [1; 3]%nat O) y_pred 0%Z = nth j preds 0%Z.
Proof.
  intros metrics splits.
  destruct scenario_cv_two_folds as ([clf' y_pred] & Hrun).
  destruct (@run_cv_pred_fold_prediction exp_instance (fun x => x) metrics
              X_scenario y_scenario self0_scenario splits clf' y_pred
              [0; 2]%nat [1; 3]%nat Hrun)
    as (X_train & X_test & y_train & M & preds & H).
  - constructor; [|constructor; constructor].
    constructor; [|constructor].
    intros i; simpl; lia.
  - right; now left.
  - repeat constructor; simpl; lia.
  - exists clf', y_pred, X_train, X_test, y_train, M, preds.
    split; [exact Hrun|exact H].
Defined.

Lemma run_cv_pred_missing_class_raises_witness :
  let metrics := fun (_ _ : list Z) => Ok (0%Q, 0%Q) in
  let clf := mk_AgeDetector 3 [1 # 3; 1 # 3; 1 # 3]%Q None in
  let X := mk_csr 1 [[(0%nat, 1%Q)]; []; [(0%nat, 1%Q)]] in
  let y := [0; 2; 3]%Z in
  run_cv_pred exp_instance (fun x => x) metrics X y clf
              [([0; 1]%nat, [2]%nat)] = Raise ValueError.
Proof.
  intros metrics clf X y.
  assert (Hwf : csr_wf X) by (repeat constructor).
  assert (Hk : n_distinct [0; 2]%Z <> length (PRIOR clf))
    by (vm_compute; lia).
  assert (Hn1 : length (PRIOR clf) <> 1%nat) by (simpl; lia).
  apply (proj2 (@run_cv_pred_missing_class_raises exp_instance (fun x => x)
                  metrics X y clf [0; 1]%nat [2]%nat []
                  (mk_csr 1 [[(0%nat, 1%Q)]; []]) (mk_csr 1 [[(0%nat, 1%Q)]])
                  [0; 2]%Z Hwf eq_refl eq_refl eq_refl Hk Hn1)).
  intros c; vm_compute; intuition (subst; discriminate).
Defined.
